(** * HAR-SSL feature engineering: ECDF features, batch adapter,
      Normalizer and frequency-band masks

    A shallow embedding of [dataloaders/data_utils.py].

    Numeric model.  Array entries are exact rationals ([Qc], canonical
    fractions, so that numeric equality is Leibniz equality).  A cell of a
    computed array is an [npfloat]: either a finite value or a non-finite
    one (nan or an infinity, which only arise from an empty statistic or a
    division by zero).  The conversions between dtypes are written out
    bit for bit: [astype(np.float32)] rounds to IEEE-754 binary32 and the
    assignment into a float64 array rounds to binary64.  The arithmetic
    of numpy's and pandas' routines ([np.mean], [np.linspace], [fftfreq],
    the frame operators) is idealised: it is carried out on the exact
    rationals, where the library rounds after every operation.  The
    statements below are therefore limited to what does not depend on
    that rounding: control flow and exceptions, shapes and layout,
    relations between two runs of the same function, comparisons, the
    end points of the sampling grid, and the two casts. *)

From Stdlib Require Import String Ascii DecimalString.
From Stdlib Require Import ZArith QArith Qcanon Qabs Qcabs Qround Qpower.
From Stdlib Require Import List Permutation Sorted Lia Lqa Bool.
Import ListNotations.

Local Open Scope Z_scope.

(** * The program *)

(** ** Exceptions and the error monad *)

Inductive exn : Type :=
| ValueError (msg : string)
| IndexError
| NameError (msg : string)
| AttributeError (attr : string)
| TypeError
| ZeroDivisionError.

Inductive result (A : Type) : Type :=
| Ok (a : A)
| Err (e : exn).
Arguments Ok {A} a.
Arguments Err {A} e.

Definition bind {A B : Type} (r : result A) (k : A -> result B) : result B :=
  match r with
  | Ok a => k a
  | Err e => Err e
  end.

Notation "x <- r ;; k" := (bind r (fun x => k))
  (at level 61, r at next level, right associativity).

(** [for x in xs: st = body st x], stopping at the first exception. *)
Fixpoint for_each {A S : Type} (xs : list A) (body : S -> A -> result S)
                  (st : S) : result S :=
  match xs with
  | [] => Ok st
  | x :: xs' => st' <- body st x ;; for_each xs' body st'
  end.

Fixpoint enumerate_from {A : Type} (k : nat) (xs : list A) : list (nat * A) :=
  match xs with
  | [] => []
  | x :: xs' => (k, x) :: enumerate_from (S k) xs'
  end.

Definition enumerate {A : Type} (xs : list A) : list (nat * A) :=
  enumerate_from 0 xs.

(** ** Numbers *)

Inductive npfloat : Type :=
| Finite (q : Qc)
| NonFinite.

Inductive dtype : Type := Float32 | Float64.

Definition Qc_of_Z (z : Z) : Qc := Q2Qc (inject_Z z).
Definition Qc_of_nat (n : nat) : Qc := Qc_of_Z (Z.of_nat n).

Definition Qcleb (x y : Qc) : bool := Qle_bool x y.
Definition Qcltb (x y : Qc) : bool := negb (Qle_bool y x).
Definition Qceqb (x y : Qc) : bool := Qeq_bool x y.

Definition string_of_nat (n : nat) : string :=
  NilEmpty.string_of_uint (Nat.to_uint n).

Definition string_of_Z (z : Z) : string :=
  NilEmpty.string_of_int (Z.to_int z).

(** *** The casts between 32-bit and 64-bit floats

    IEEE-754 binary32, round to nearest, ties to even: 24 significant
    bits, least exponent -126 (below it the spacing stays [2^-149]),
    overflow to an infinity.  binary64 likewise with 53 significant
    bits, least exponent -1022 and overflow at [2^1024]. *)

Definition pow2 (e : Z) : Qc :=
  if 0 <=? e then Qc_of_Z (2 ^ e) else (/ Qc_of_Z (2 ^ (- e)))%Qc.

(** [floor (log2 q)] for [q > 0]. *)
Definition Qc_log2 (q : Qc) : Z :=
  let n := Qnum q in
  let d := Zpos (Qden q) in
  let e := Z.log2 n - Z.log2 d in
  if Qcleb (pow2 e) q then e else e - 1.

(** Round to the nearest integer, ties to even ([np.around], [rint]). *)
Definition rint (q : Q) : Z :=
  let f := Qfloor q in
  match (q - inject_Z f ?= 1 # 2)%Q with
  | Lt => f
  | Gt => f + 1
  | Eq => if Z.even f then f else f + 1
  end.

Definition float32_of_Qc (q : Qc) : npfloat :=
  if Qceqb q 0%Qc then Finite 0%Qc else
  let a := Qcabs q in
  let e := Z.max (Qc_log2 a) (-126) in
  let ulp := pow2 (e - 23) in
  let v := (Qc_of_Z (rint (a / ulp)) * ulp)%Qc in
  if Qcleb (pow2 128) v then NonFinite
  else Finite (if Qcltb q 0%Qc then (- v)%Qc else v).

Definition float32_of (x : npfloat) : npfloat :=
  match x with
  | Finite q => float32_of_Qc q
  | NonFinite => NonFinite
  end.

Definition float64_of_Qc (q : Qc) : npfloat :=
  if Qceqb q 0%Qc then Finite 0%Qc else
  let a := Qcabs q in
  let e := Z.max (Qc_log2 a) (-1022) in
  let ulp := pow2 (e - 52) in
  let v := (Qc_of_Z (rint (a / ulp)) * ulp)%Qc in
  if Qcleb (pow2 1024) v then NonFinite
  else Finite (if Qcltb q 0%Qc then (- v)%Qc else v).

Definition float64_of (x : npfloat) : npfloat :=
  match x with
  | Finite q => float64_of_Qc q
  | NonFinite => NonFinite
  end.

(** Conversion of one cell between dtypes: the cell is rounded to the
    format it enters; within one dtype nothing happens. *)
Definition cast (from to : dtype) (x : npfloat) : npfloat :=
  match from, to with
  | Float64, Float32 => float32_of x
  | Float32, Float64 => float64_of x
  | _, _ => x
  end.

(** ** Arrays *)

(** A two-dimensional input array [window_size, channels]: [shape1] is
    [shape[1]], the rows are the time steps. *)
Record ndarray2 : Type := mk_ndarray2 {
  shape1 : nat;
  rows : list (list Qc)
}.

Definition shape0 (a : ndarray2) : nat := length (rows a).

(** [a[:, j]] *)
Definition column (a : ndarray2) (j : nat) : list Qc :=
  map (fun r => nth j r 0%Qc) (rows a).

(** [a[:, js]] *)
Definition take_columns (a : ndarray2) (js : list nat) : ndarray2 :=
  {| shape1 := length js;
     rows := map (fun r => map (fun j => nth j r 0%Qc) js) (rows a) |}.

(** A computed two-dimensional float array with its dtype. *)
Record farray2 : Type := mk_farray2 {
  dtype2 : dtype;
  cells2 : list (list npfloat)
}.

(** A computed three-dimensional float array with its dtype. *)
Record farray3 : Type := mk_farray3 {
  dtype3 : dtype;
  cells3 : list (list (list npfloat))
}.

Definition astype2 (to : dtype) (a : farray2) : farray2 :=
  {| dtype2 := to; cells2 := map (map (cast (dtype2 a) to)) (cells2 a) |}.

(** [np.zeros((r, c))]: float64; a negative dimension is a ValueError. *)
Definition np_zeros2 (r c : Z) : result farray2 :=
  if (r <? 0) || (c <? 0)
  then Err (ValueError "negative dimensions are not allowed")
  else Ok {| dtype2 := Float64;
             cells2 := repeat (repeat (Finite 0%Qc) (Z.to_nat c)) (Z.to_nat r) |}.

(** [xs[k] = v] along one axis, for [k] within range (as it is at every
    use below). *)
Definition set_nth {A : Type} (k : nat) (v : A) (xs : list A) : list A :=
  firstn k xs ++ v :: skipn (S k) xs.

(** [row[start : start + len(vs)] = vs] *)
Definition assign_slice {A : Type} (start : nat) (vs : list A) (row : list A)
  : list A :=
  firstn start row ++ vs ++ skipn (start + length vs) row.

Definition update_row {A : Type} (k : nat) (f : list A -> list A)
                      (m : list (list A)) : list (list A) :=
  match nth_error m k with
  | Some r => set_nth k (f r) m
  | None => m
  end.

(** ** numpy routines used by the extractor *)

Definition Qc_sum (l : list Qc) : Qc := fold_right Qcplus 0%Qc l.

(** [np.mean]: nan on an empty sample.  The sum and the quotient are
    exact here; numpy accumulates in floating point, so that its result
    depends on the dtype and on the order of the samples.  No statement
    below depends on that rounding. *)
Definition np_mean (l : list Qc) : npfloat :=
  match l with
  | [] => NonFinite
  | _ => Finite (Qc_sum l / Qc_of_nat (length l))%Qc
  end.

Fixpoint insert_sorted (x : Qc) (l : list Qc) : list Qc :=
  match l with
  | [] => [x]
  | y :: l' => if Qcleb x y then x :: l else y :: insert_sorted x l'
  end.

(** [np.sort]: the ascending rearrangement. *)
Definition np_sort (l : list Qc) : list Qc := fold_right insert_sorted [] l.

(** [np.linspace(start, stop, num=num)] with the endpoint included:
    [i * (delta / div) + start], the last point set to [stop].  The
    products are exact here; numpy rounds the step and every product to
    binary64, which can move an inner point across a rounding tie.  The
    number of points, the two end points, and the points being in order
    within [start, stop] do not depend on that rounding; the statements
    below use nothing else. *)
Definition np_linspace (start stop : Qc) (num : Z) : result (list Qc) :=
  if num <? 0 then
    Err (ValueError ("Number of samples, " ++ string_of_Z num
                     ++ ", must be non-negative.")%string)
  else
    let n := Z.to_nat num in
    let div := (n - 1)%nat in
    let delta := (stop - start)%Qc in
    Ok (map (fun i : nat =>
               if (1 <? n)%nat && (i =? n - 1)%nat then stop
               else if (0 <? div)%nat
                    then (Qc_of_nat i * (delta / Qc_of_nat div) + start)%Qc
                    else (Qc_of_nat i * delta + start)%Qc)
            (seq 0 n)).

(** [np.around(xs).astype(int)] *)
Definition np_around_int (xs : list Qc) : list Z :=
  map (fun x : Qc => rint x) xs.

(** [xs[k]] for one integer of an index array: negative indices count
    from the end, anything else out of range is an IndexError. *)
Definition getitem (xs : list Qc) (k : Z) : result Qc :=
  let len := Z.of_nat (length xs) in
  if (0 <=? k) && (k <? len) then Ok (nth (Z.to_nat k) xs 0%Qc)
  else if (- len <=? k) && (k <? 0) then Ok (nth (Z.to_nat (k + len)) xs 0%Qc)
  else Err IndexError.

(** [xs[indices]] *)
Fixpoint take (xs : list Qc) (indices : list Z) : result (list Qc) :=
  match indices with
  | [] => Ok []
  | k :: ks => v <- getitem xs k ;; vs <- take xs ks ;; Ok (v :: vs)
  end.

(** ** compute_ecdf_features *)

Definition unsupported_channels_msg (channels : nat) : string :=
  ("Unsupported number of channels: " ++ string_of_nat channels
   ++ ". Must be 9 (acc only) or 18 (acc+gyro).")%string.

(** The error the spec calls [UnsupportedChannelCount]. *)
Definition UnsupportedChannelCount (channels : nat) : exn :=
  ValueError (unsupported_channels_msg channels).

(** [list(range(0, 18, 2))] *)
Definition acc_indices : list nat := map (fun k => 2 * k)%nat (seq 0 9).

Definition axes_indices : list (list nat) :=
  [ [0; 3; 6]; [1; 4; 7]; [2; 5; 8] ]%nat.

(** Body of the inner loop (lines 51-67). *)
Definition ecdf_channel_step (window_data : ndarray2) (n_points : Z)
    (axis_idx : nat) (ecdf_features : list (list npfloat))
    (ic : nat * nat) : result (list (list npfloat)) :=
  let '(i, channel_idx) := ic in
  let channel_data := column window_data channel_idx in
  let mean_value := np_mean channel_data in
  let sorted_data := np_sort channel_data in
  points <- np_linspace 0%Qc (Qc_of_Z (Z.of_nat (length sorted_data) - 1))
                        n_points ;;
  let indices := np_around_int points in
  ecdf_points <- take sorted_data indices ;;
  let start_idx := (i * (Z.to_nat n_points + 1))%nat in
  let ecdf_features :=
    update_row axis_idx (assign_slice start_idx (map Finite ecdf_points))
               ecdf_features in
  let ecdf_features :=
    update_row axis_idx (set_nth (start_idx + Z.to_nat n_points) mean_value)
               ecdf_features in
  Ok ecdf_features.

(** Body of the outer loop (lines 46-67). *)
Definition ecdf_axis_step (window_data : ndarray2) (n_points : Z)
    (ecdf_features : list (list npfloat))
    (ax : nat * list nat) : result (list (list npfloat)) :=
  let '(axis_idx, axis_channels) := ax in
  for_each (enumerate axis_channels)
           (ecdf_channel_step window_data n_points axis_idx)
           ecdf_features.

Definition compute_ecdf_features (window_data : ndarray2) (n_points : Z)
  : result farray2 :=
  let channels := shape1 window_data in
  if negb (channels =? 9)%nat && negb (channels =? 18)%nat then
    Err (UnsupportedChannelCount channels)
  else
    let window_data :=
      if (channels =? 18)%nat then take_columns window_data acc_indices
      else window_data in
    zeros <- np_zeros2 3 ((n_points + 1) * 3) ;;
    ecdf_features <- for_each (enumerate axes_indices)
                              (ecdf_axis_step window_data n_points)
                              (cells2 zeros) ;;
    Ok (astype2 Float32 {| dtype2 := dtype2 zeros; cells2 := ecdf_features |}).

(** ** compute_batch_ecdf_features *)

(** [np.zeros((d0, 3, 78))] *)
Definition np_zeros3 (d0 d1 d2 : nat) : farray3 :=
  {| dtype3 := Float64;
     cells3 := repeat (repeat (repeat (Finite 0%Qc) d2) d1) d0 |}.

(** [features[i] = block]: the block is converted to the dtype of
    [features]; its shape is the shape of [features[i]] (see
    [compute_ecdf_features_shape]), so nothing is broadcast. *)
Definition assign_block (features : farray3) (i : nat) (block : farray2)
  : farray3 :=
  {| dtype3 := dtype3 features;
     cells3 := set_nth i (cells2 (astype2 (dtype3 features) block))
                       (cells3 features) |}.

(** A batch [batch_size, window_size, channels] is the list of its
    windows [batch_data[i]]. *)
Definition compute_batch_ecdf_features (batch_data : list ndarray2)
  : result farray3 :=
  let batch_size := length batch_data in
  let features := np_zeros3 batch_size 3 78 in
  for_each (enumerate batch_data)
           (fun features '(i, window) =>
              block <- compute_ecdf_features window 25 ;;
              Ok (assign_block features i block))
           features.

(** ** Normalizer *)

(** [np.finfo(float).eps] *)
Definition float_eps : Qc := pow2 (-52).

Definition fadd (x y : npfloat) : npfloat :=
  match x, y with
  | Finite a, Finite b => Finite (a + b)%Qc
  | _, _ => NonFinite
  end.

Definition fsub (x y : npfloat) : npfloat :=
  match x, y with
  | Finite a, Finite b => Finite (a - b)%Qc
  | _, _ => NonFinite
  end.

(** Division of floats: a zero denominator gives nan or an infinity, no
    exception. *)
Definition fdiv (x y : npfloat) : npfloat :=
  match x, y with
  | Finite a, Finite b => if Qceqb b 0%Qc then NonFinite else Finite (a / b)%Qc
  | _, _ => NonFinite
  end.

(** A data frame: one index label and one row of cells per line. *)
Record DataFrame : Type := mk_DataFrame {
  ncols : nat;
  index : list Z;
  cells : list (list npfloat)
}.

(** An attribute of a [Normalizer] instance. *)
Inductive attr : Type :=
| Unset
| PyNone
| Series (s : list npfloat).

Record Normalizer : Type := mk_Normalizer {
  norm_type : string;
  mean : attr;
  std : attr;
  max_val : attr;
  min_val : attr
}.

(** [Normalizer(norm_type)]: the constructor stores the mode unchecked. *)
Definition Normalizer_init (norm_type : string) : Normalizer :=
  {| norm_type := norm_type;
     mean := Unset; std := Unset; max_val := Unset; min_val := Unset |}.

Definition dquote : string := String (ascii_of_nat 34) EmptyString.

Definition not_implemented_msg (norm_type : string) : string :=
  ("Normalize method " ++ dquote ++ norm_type ++ dquote
   ++ " not implemented")%string.

(** The error the spec calls [UnknownNormalizationMethod]. *)
Definition UnknownNormalizationMethod (norm_type : string) : exn :=
  NameError (not_implemented_msg norm_type).

Fixpoint finite_values (xs : list npfloat) : list Qc :=
  match xs with
  | [] => []
  | Finite q :: xs' => q :: finite_values xs'
  | NonFinite :: xs' => finite_values xs'
  end.

Definition Qc_max_list (x : Qc) (xs : list Qc) : Qc :=
  fold_left (fun m y => if Qcleb m y then y else m) xs x.

Definition Qc_min_list (x : Qc) (xs : list Qc) : Qc :=
  fold_left (fun m y => if Qcleb y m then y else m) xs x.

Section Statistics.
(** The square root of the floating-point unit, left uninterpreted. *)
Variable sqrt : Qc -> Qc.

(** pandas reductions skip nan cells.  The mean and the deviation are
    exact, as [np_mean] is. *)
Definition stat_mean (xs : list npfloat) : npfloat :=
  np_mean (finite_values xs).

(** Sample standard deviation ([ddof=1]): nan below two values. *)
Definition stat_std (xs : list npfloat) : npfloat :=
  let vs := finite_values xs in
  match np_mean vs with
  | Finite m =>
      if (length vs <=? 1)%nat then NonFinite
      else Finite (sqrt (Qc_sum (map (fun v => (v - m) * (v - m))%Qc vs)
                         / Qc_of_nat (length vs - 1)))%Qc
  | NonFinite => NonFinite
  end.

Definition stat_max (xs : list npfloat) : npfloat :=
  match finite_values xs with
  | [] => NonFinite
  | v :: vs => Finite (Qc_max_list v vs)
  end.

Definition stat_min (xs : list npfloat) : npfloat :=
  match finite_values xs with
  | [] => NonFinite
  | v :: vs => Finite (Qc_min_list v vs)
  end.

Definition df_column (rows : list (list npfloat)) (j : nat) : list npfloat :=
  map (fun r => nth j r NonFinite) rows.

(** [df.mean(0)], [df.std(0)], [df.max()], [df.min()]: one value per
    column. *)
Definition reduce_columns (stat : list npfloat -> npfloat) (df : DataFrame)
  : list npfloat :=
  map (fun j => stat (df_column (cells df) j)) (seq 0 (ncols df)).

(** [df.groupby(by=df.index).transform(stat)]: every line receives the
    statistic of the lines that share its index label. *)
Definition group_transform (stat : list npfloat -> npfloat) (df : DataFrame)
  : list (list npfloat) :=
  map (fun k =>
         let group := map snd (filter (fun kr => Z.eqb (fst kr) k)
                                      (combine (index df) (cells df))) in
         map (fun j => stat (df_column group j)) (seq 0 (ncols df)))
      (index df).

(** Cell-wise operation on aligned rows; a missing cell is nan. *)
Fixpoint zip_cells (op : npfloat -> npfloat -> npfloat)
                   (xs ys : list npfloat) : list npfloat :=
  match xs, ys with
  | [], [] => []
  | x :: xs', y :: ys' => op x y :: zip_cells op xs' ys'
  | _ :: xs', [] => NonFinite :: zip_cells op xs' []
  | [], ys' => map (fun _ => NonFinite) ys'
  end.

(** frame (op) series, the series running along the columns *)
Definition frame_op_series (op : npfloat -> npfloat -> npfloat)
    (rows : list (list npfloat)) (s : list npfloat) : list (list npfloat) :=
  map (fun r => zip_cells op r s) rows.

(** frame (op) frame *)
Fixpoint frame_op_frame (op : npfloat -> npfloat -> npfloat)
    (a b : list (list npfloat)) : list (list npfloat) :=
  match a, b with
  | r :: a', s :: b' => zip_cells op r s :: frame_op_frame op a' b'
  | _, _ => []
  end.

(** [x + np.finfo(float).eps].  The sum is exact here; in binary64 it is
    rounded, and [eps] is absorbed once the other operand reaches 2.  The
    statements below use the sum on zero and on nan only. *)
Definition add_eps (x : npfloat) : npfloat := fadd x (Finite float_eps).

(** Frame (op) frame on two frames with the same labels: index and
    columns are those of the operands. *)
Definition with_cells (df : DataFrame) (rows : list (list npfloat))
  : DataFrame :=
  {| ncols := ncols df; index := index df; cells := rows |}.

(** Frame (op) series: pandas aligns the series on the column labels of
    the frame and the result carries the union of the two sets of
    labels.  Columns are labelled [0 .. ncols - 1] here, so the union is
    the longer of the two ranges; a cell missing on either side is nan. *)
Definition frame_with_series (op : npfloat -> npfloat -> npfloat)
    (df : DataFrame) (s : list npfloat) : DataFrame :=
  {| ncols := Nat.max (ncols df) (length s);
     index := index df;
     cells := frame_op_series op (cells df) s |}.

(** Reading an attribute that [fit] has to set: a missing attribute is an
    AttributeError, [None] cannot enter the arithmetic. *)
Definition get_series (name : string) (a : attr) : result (list npfloat) :=
  match a with
  | Series s => Ok s
  | Unset => Err (AttributeError name)
  | PyNone => Err TypeError
  end.

Definition fit (self : Normalizer) (df : DataFrame) : result Normalizer :=
  if (norm_type self =? "standardization")%string then
    Ok {| norm_type := norm_type self;
          mean := Series (reduce_columns stat_mean df);
          std := Series (reduce_columns stat_std df);
          max_val := max_val self; min_val := min_val self |}
  else if (norm_type self =? "minmax")%string then
    Ok {| norm_type := norm_type self;
          mean := mean self; std := std self;
          max_val := Series (reduce_columns stat_max df);
          min_val := Series (reduce_columns stat_min df) |}
  else if (norm_type self =? "per_sample_std")%string then
    Ok {| norm_type := norm_type self;
          mean := mean self; std := std self;
          max_val := PyNone; min_val := PyNone |}
  else if (norm_type self =? "per_sample_minmax")%string then
    Ok {| norm_type := norm_type self;
          mean := mean self; std := std self;
          max_val := PyNone; min_val := PyNone |}
  else Err (UnknownNormalizationMethod (norm_type self)).

(** The denominators of the four formulas, as the code writes them. *)
Definition standardization_denominator (s : list npfloat) : list npfloat :=
  map add_eps s.

Definition minmax_denominator (hi lo : list npfloat) : list npfloat :=
  map add_eps (zip_cells fsub hi lo).

Definition per_sample_std_denominator (df : DataFrame)
  : list (list npfloat) :=
  group_transform stat_std df.

Definition per_sample_minmax_denominator (df : DataFrame)
  : list (list npfloat) :=
  map (map add_eps)
      (frame_op_frame fsub (group_transform stat_max df)
                      (group_transform stat_min df)).

Definition normalize (self : Normalizer) (df : DataFrame)
  : result DataFrame :=
  if (norm_type self =? "standardization")%string then
    m <- get_series "mean" (mean self) ;;
    s <- get_series "std" (std self) ;;
    Ok (frame_with_series fdiv (frame_with_series fsub df m)
                          (standardization_denominator s))
  else if (norm_type self =? "minmax")%string then
    lo <- get_series "min_val" (min_val self) ;;
    hi <- get_series "max_val" (max_val self) ;;
    lo' <- get_series "min_val" (min_val self) ;;
    Ok (frame_with_series fdiv (frame_with_series fsub df lo)
                          (minmax_denominator hi lo'))
  else if (norm_type self =? "per_sample_std")%string then
    Ok (with_cells df
          (frame_op_frame fdiv
             (frame_op_frame fsub (cells df) (group_transform stat_mean df))
             (per_sample_std_denominator df)))
  else if (norm_type self =? "per_sample_minmax")%string then
    Ok (with_cells df
          (frame_op_frame fdiv
             (frame_op_frame fsub (cells df) (group_transform stat_min df))
             (per_sample_minmax_denominator df)))
  else Err (UnknownNormalizationMethod (norm_type self)).
End Statistics.

(** ** components_selection_one_signal *)

Definition Qcgtb (x y : Qc) : bool := Qcltb y x.

(** The integer bins of [fftfreq]: [arange(0, N)] with
    [N = (n-1)//2 + 1], then [arange(-(n//2), 0)]. *)
Definition fftfreq_bins (n : nat) : list Z :=
  let N := ((n - 1) / 2 + 1)%nat in
  map Z.of_nat (seq 0 N)
  ++ map (fun k => Z.of_nat k - Z.of_nat (n / 2)) (seq 0 (n / 2)).

(** [fftfreq(n, d)]: the bins scaled by [1.0 / (n * d)].  The scale and
    the products are exact here; numpy rounds them to binary64, so that
    a bin can differ from [k / (n * d)] in the last place.  The
    statements below use the number of bins and the bin of index 0 only. *)
Definition np_fftfreq (n : nat) (d : Qc) : result (list Qc) :=
  if Qceqb (Qc_of_nat n * d) 0%Qc then Err ZeroDivisionError
  else
    let val := (1 / (Qc_of_nat n * d))%Qc in
    Ok (map (fun k => (Qc_of_Z k * val)%Qc) (fftfreq_bins n)).

(** [1 / float(x)] *)
Definition float_reciprocal (x : Qc) : result Qc :=
  if Qceqb x 0%Qc then Err ZeroDivisionError else Ok (1 / x)%Qc.

Section Spectrum.
(** Complex numbers and the transforms of [scipy.fftpack], left
    uninterpreted: only the length of a spectrum matters below. *)
Variable complex : Type.
Variable complex_of_float : Qc -> complex.
Variable real : complex -> Qc.
Variable fft_values : list Qc -> list complex.
Variable ifft_values : list complex -> list complex.

(** [fft(x)] refuses an empty sequence. *)
Definition fft (x : list Qc) : result (list complex) :=
  match x with
  | [] => Err (ValueError "invalid number of data points (0) specified")
  | _ => Ok (fft_values x)
  end.

Definition getitem_complex (xs : list complex) (i : nat) : result complex :=
  match nth_error xs i with
  | Some v => Ok v
  | None => Err IndexError
  end.

(** Body of the loop over the bins (lines 188-212). *)
Definition select_bin (freqs : list Qc) (f_signal : list complex)
    (freq1 freq2 : Qc)
    (acc : list complex * list complex * list complex) (i : nat)
  : result (list complex * list complex * list complex) :=
  let '(f_DC_signal, f_body_signal, f_noise_signal) := acc in
  let freq := nth i freqs 0%Qc in
  value <- getitem_complex f_signal i ;;
  let f_DC_signal :=
    if Qcgtb (Qcabs freq) freq1
    then f_DC_signal ++ [complex_of_float 0%Qc]
    else f_DC_signal ++ [value] in
  let f_noise_signal :=
    if Qcleb (Qcabs freq) freq2
    then f_noise_signal ++ [complex_of_float 0%Qc]
    else f_noise_signal ++ [value] in
  let f_body_signal :=
    if Qcleb (Qcabs freq) freq1 || Qcgtb (Qcabs freq) freq2
    then f_body_signal ++ [complex_of_float 0%Qc]
    else f_body_signal ++ [value] in
  Ok (f_DC_signal, f_body_signal, f_noise_signal).

(** Lines 172-212: the bin frequencies and the three masked spectra
    (DC, body, noise). *)
Definition masked_spectra (t_signal : list Qc) (freq1 freq2 : Qc)
    (sampling_freq : Qc)
  : result (list Qc * (list complex * list complex * list complex)) :=
  let t_signal_length := length t_signal in
  f_signal <- fft t_signal ;;
  d <- float_reciprocal sampling_freq ;;
  freqs <- np_fftfreq t_signal_length d ;;
  spectra <- for_each (seq 0 (length freqs))
                      (select_bin freqs f_signal freq1 freq2)
                      ([], [], []) ;;
  Ok (freqs, spectra).

Definition components_selection_one_signal (t_signal : list Qc)
    (freq1 freq2 : Qc) (sampling_freq : Qc) : result (list Qc * list Qc) :=
  fs <- masked_spectra t_signal freq1 freq2 sampling_freq ;;
  let '(_, (f_DC_signal, f_body_signal, _)) := fs in
  let t_DC_component := map real (ifft_values f_DC_signal) in
  let t_body_component := map real (ifft_values f_body_signal) in
  Ok (t_DC_component, t_body_component).

(** The three masks of the spec, as tests on a bin frequency. *)
Definition dc_mask (freq1 : Qc) (freq : Qc) : bool :=
  Qcleb (Qcabs freq) freq1.

Definition body_mask (freq1 freq2 : Qc) (freq : Qc) : bool :=
  Qcltb freq1 (Qcabs freq) && Qcleb (Qcabs freq) freq2.

Definition noise_mask (freq2 : Qc) (freq : Qc) : bool :=
  Qcltb freq2 (Qcabs freq).

Definition apply_mask (mask : Qc -> bool) (freqs : list Qc)
    (f_signal : list complex) : list complex :=
  map (fun fv : Qc * complex =>
         if mask (fst fv) then snd fv else complex_of_float 0%Qc)
      (combine freqs f_signal).

Definition exactly_one (a b c : bool) : Prop :=
  (a = true /\ b = false /\ c = false) \/
  (a = false /\ b = true /\ c = false) \/
  (a = false /\ b = false /\ c = true).
End Spectrum.

(** ** get_ecdf_dimension *)

Definition get_ecdf_dimension : nat * nat := (3, 78)%nat.


(** ** configs/config.py: str2bool *)

(** What [str2bool] receives: a boolean (an argparse default) or a
    command-line string.  Strings are ASCII; [lower] maps A-Z to a-z and
    leaves every other character alone. *)
Inductive argument : Type :=
| ArgBool (b : bool)
| ArgStr (s : string).

Inductive str2bool_result : Type :=
| Returns (b : bool)
| ArgumentTypeError (msg : string).

Definition ascii_lower (c : ascii) : ascii :=
  let n := nat_of_ascii c in
  if (65 <=? n)%nat && (n <=? 90)%nat then ascii_of_nat (n + 32) else c.

Definition ascii_upper (c : ascii) : ascii :=
  let n := nat_of_ascii c in
  if (97 <=? n)%nat && (n <=? 122)%nat then ascii_of_nat (n - 32) else c.

(** [s.lower()] *)
Fixpoint lower (s : string) : string :=
  match s with
  | EmptyString => EmptyString
  | String c s' => String (ascii_lower c) (lower s')
  end.

(** [s.upper()] *)
Fixpoint upper (s : string) : string :=
  match s with
  | EmptyString => EmptyString
  | String c s' => String (ascii_upper c) (upper s')
  end.

(** [s in (w1, w2, ...)] *)
Definition in_tuple (s : string) (words : list string) : bool :=
  existsb (String.eqb s) words.

Definition true_words : list string :=
  ["yes"; "true"; "t"; "y"; "1"]%string.

Definition false_words : list string :=
  ["no"; "false"; "f"; "n"; "0"]%string.

Definition str2bool (v : argument) : str2bool_result :=
  match v with
  | ArgBool b => Returns b
  | ArgStr s =>
      if in_tuple (lower s) true_words then Returns true
      else if in_tuple (lower s) false_words then Returns false
      else ArgumentTypeError "Boolean value expected."
  end.

(** [str(b)] *)
Definition str_of_bool (b : bool) : string :=
  if b then "True"%string else "False"%string.

(** * Vocabulary of the statements *)

Fixpoint mapM {A B : Type} (f : A -> result B) (xs : list A) : result (list B) :=
  match xs with
  | [] => Ok []
  | x :: xs' => y <- f x ;; ys <- mapM f xs' ;; Ok (y :: ys)
  end.

(** Lines 51-61 for one channel: the sampled sorted values, then the mean. *)
Definition channel_features (window_data : ndarray2) (n_points : Z)
    (channel_idx : nat) : result (list npfloat) :=
  let channel_data := column window_data channel_idx in
  let sorted_data := np_sort channel_data in
  points <- np_linspace 0%Qc (Qc_of_Z (Z.of_nat (length sorted_data) - 1))
                        n_points ;;
  ecdf_points <- take sorted_data (np_around_int points) ;;
  Ok (map Finite ecdf_points ++ [np_mean channel_data]).

(** What the spec asks of one channel: the sorted samples read at the
    given indices, then the mean. *)
Definition sampled_features (channel_data : list Qc) (indices : list Z)
  : list npfloat :=
  map (fun k => Finite (nth (Z.to_nat k) (np_sort channel_data) 0%Qc)) indices
  ++ [np_mean channel_data].

Definition zero_row (n : nat) : list npfloat := repeat (Finite 0%Qc) n.

(** Row [a] of the block is the concatenation of the features of the
    channels of axis [a]; the first channel that fails, in loop order,
    decides the exception. *)
Definition ecdf_layout (w : ndarray2) (n_points : Z) : result farray2 :=
  block <- mapM (fun axis_channels =>
                   segments <- mapM (channel_features w n_points) axis_channels ;;
                   Ok (concat segments))
                axes_indices ;;
  Ok {| dtype2 := Float32; cells2 := map (map float32_of) block |}.

(** The segment of sensor position [i] in a row of the block. *)
Definition segment {A : Type} (n_points : Z) (i : nat) (row : list A) : list A :=
  let width := (Z.to_nat n_points + 1)%nat in
  firstn width (skipn (i * width) row).

(** The input channel that feeds feature channel [j]: itself for a
    9-channel window, the accelerometer channel [2 * j] for 18 channels. *)
Definition source_channel (channels j : nat) : nat :=
  if (channels =? 18)%nat then (2 * j)%nat else j.

(** The batch result in one piece: the blocks of the windows, in order,
    each converted to float64. *)
Definition batch_layout (batch_data : list ndarray2) : result farray3 :=
  blocks <- mapM (fun window => compute_ecdf_features window 25) batch_data ;;
  Ok {| dtype3 := Float64;
        cells3 := map (fun block => cells2 (astype2 Float64 block)) blocks |}.

(** After the channel check only numpy raises: an index out of range, a
    negative dimension or a negative number of samples. *)
Definition numpy_error (e : exn) : Prop :=
  e = IndexError \/
  e = ValueError "negative dimensions are not allowed" \/
  exists num, e = ValueError ("Number of samples, " ++ string_of_Z num
                              ++ ", must be non-negative.")%string.

(** The values of IEEE-754 binary32: [m * 2^e] with a significand of at
    most 24 bits, an exponent not below that of the least subnormal, and
    a magnitude below [2^128]. *)
Definition binary32_value (v : Qc) : Prop :=
  exists m e : Z,
    v = (Qc_of_Z m * pow2 e)%Qc /\ Z.abs m <= 2 ^ 24 /\ -149 <= e /\
    (Qcabs v < pow2 128)%Qc.

(** A cell a float32 array can hold: a binary32 value, nan or an
    infinity. *)
Definition binary32_cell (x : npfloat) : Prop :=
  match x with
  | Finite v => binary32_value v
  | NonFinite => True
  end.

(** The channel check of [compute_ecdf_features] passes. *)
Definition valid_channels (w : ndarray2) : Prop :=
  shape1 w = 9%nat \/ shape1 w = 18%nat.

Definition valid_mode (mode : string) : Prop :=
  mode = "standardization"%string \/ mode = "minmax"%string \/
  mode = "per_sample_std"%string \/ mode = "per_sample_minmax"%string.

(** The characters of a string. *)
Fixpoint chars (s : string) : list ascii :=
  match s with
  | EmptyString => []
  | String c s' => c :: chars s'
  end.

(** * Sample inputs *)

Definition row_of (zs : list Z) : list Qc := map Qc_of_Z zs.

(** Three time steps of nine accelerometer channels. *)
Definition example_window : ndarray2 :=
  {| shape1 := 9;
     rows := [ row_of [3; 1; 4; 1; 5; 9; 2; 6; 5];
               row_of [2; 7; 1; 8; 2; 8; 1; 8; 2];
               row_of [1; 4; 1; 4; 2; 1; 3; 5; 6] ] |}.

(** The same readings in reverse time order. *)
Definition example_window_reversed : ndarray2 :=
  {| shape1 := 9; rows := rev (rows example_window) |}.

(** Two time steps of accelerometer and gyroscope channels, interleaved. *)
Definition example_window_18 : ndarray2 :=
  {| shape1 := 18;
     rows := [ row_of [3; 0; 1; 0; 4; 0; 1; 0; 5; 0; 9; 0; 2; 0; 6; 0; 5; 0];
               row_of [2; 1; 7; 1; 1; 1; 8; 1; 2; 1; 8; 1; 1; 1; 8; 1; 2; 1] ] |}.

(** A window with a channel count that the extractor refuses. *)
Definition example_window_7 : ndarray2 :=
  {| shape1 := 7; rows := [ row_of [1; 2; 3; 4; 5; 6; 7] ] |}.

(** An exact square root on the squares of fractions. *)
Definition example_sqrt (q : Qc) : Qc :=
  Q2Qc (Z.sqrt (Qnum q) # Pos.sqrt (Qden q)).

(** A spectrum of the right length, with complex numbers as pairs. *)
Definition example_spectrum (x : list Qc) : list (Qc * Qc) :=
  map (fun v => (v, 0%Qc)) x.

(** The frame of C7: one sample (index label 0) of two equal readings. *)
Definition constant_sample : DataFrame :=
  {| ncols := 1; index := [0; 0];
     cells := [[Finite (Qc_of_Z 5)]; [Finite (Qc_of_Z 5)]] |}.

(** Two equal time steps: every channel is constant. *)
Definition example_window_flat : ndarray2 :=
  {| shape1 := 9;
     rows := [ row_of [3; 1; 4; 1; 5; 9; 2; 6; 5];
               row_of [3; 1; 4; 1; 5; 9; 2; 6; 5] ] |}.

(** Nine channels and no time step. *)
Definition example_window_empty : ndarray2 :=
  {| shape1 := 9; rows := [] |}.

(** [example_window_18] with other gyroscope readings. *)
Definition example_window_18_gyro : ndarray2 :=
  {| shape1 := 18;
     rows := [ row_of [3; 7; 1; 7; 4; 7; 1; 7; 5; 7; 9; 7; 2; 7; 6; 7; 5; 7];
               row_of [2; 8; 7; 8; 1; 8; 8; 8; 2; 8; 8; 8; 1; 8; 8; 8; 2; 8] ] |}.

(** Two samples (index labels 0 and 1) over two columns. *)
Definition example_frame : DataFrame :=
  {| ncols := 2; index := [0; 0; 1];
     cells := [ map Finite (row_of [1; 4]); map Finite (row_of [3; 2]);
                map Finite (row_of [5; 6]) ] |}.

(** A frame of one line. *)
Definition example_frame_single : DataFrame :=
  {| ncols := 2; index := [0]; cells := [ map Finite (row_of [1; 4]) ] |}.

(** * Properties *)

(** ** Order on [Qc] through its boolean tests *)

Lemma Qcleb_le (x y : Qc) : Qcleb x y = true <-> (x <= y)%Qc.
Proof. unfold Qcleb. apply Qle_bool_iff. Qed.

Lemma Qcleb_gt (x y : Qc) : Qcleb x y = false <-> (y < x)%Qc.
Proof.
  split; intro H.
  - apply Qcnot_le_lt. intro L. apply Qcleb_le in L. congruence.
  - destruct (Qcleb x y) eqn:E; [|reflexivity].
    apply Qcleb_le in E. exfalso. exact (Qclt_not_le _ _ H E).
Qed.

Lemma Qcltb_lt (x y : Qc) : Qcltb x y = true <-> (x < y)%Qc.
Proof.
  unfold Qcltb. rewrite negb_true_iff. apply (Qcleb_gt y x).
Qed.

Lemma Qcltb_ge (x y : Qc) : Qcltb x y = false <-> (y <= x)%Qc.
Proof.
  unfold Qcltb. rewrite negb_false_iff. apply (Qcleb_le y x).
Qed.

(** ** Sorting does not see the order of the samples *)

Lemma insert_sorted_comm (x y : Qc) (l : list Qc) :
  insert_sorted x (insert_sorted y l) = insert_sorted y (insert_sorted x l).
Proof.
  induction l as [|z l IH]; simpl.
  - destruct (Qcleb x y) eqn:Exy, (Qcleb y x) eqn:Eyx; try reflexivity.
    + apply Qcleb_le in Exy, Eyx.
      rewrite (Qcle_antisym _ _ Exy Eyx). reflexivity.
    + apply Qcleb_gt in Exy, Eyx.
      exfalso. exact (Qclt_not_le _ _ Exy (Qclt_le_weak _ _ Eyx)).
  - destruct (Qcleb y z) eqn:Eyz, (Qcleb x z) eqn:Exz; simpl;
      rewrite ?Eyz, ?Exz.
    + destruct (Qcleb x y) eqn:Exy, (Qcleb y x) eqn:Eyx;
        rewrite ?Eyz, ?Exz; try reflexivity.
      * apply Qcleb_le in Exy, Eyx.
        rewrite (Qcle_antisym _ _ Exy Eyx). reflexivity.
      * apply Qcleb_gt in Exy, Eyx.
        exfalso. exact (Qclt_not_le _ _ Exy (Qclt_le_weak _ _ Eyx)).
    + assert (Exy : Qcleb x y = false).
      { apply Qcleb_gt. apply Qcleb_le in Eyz. apply Qcleb_gt in Exz.
        exact (Qcle_lt_trans _ _ _ Eyz Exz). }
      rewrite ?Exy, ?Exz, ?Eyz. reflexivity.
    + assert (Eyx : Qcleb y x = false).
      { apply Qcleb_gt. apply Qcleb_le in Exz. apply Qcleb_gt in Eyz.
        exact (Qcle_lt_trans _ _ _ Exz Eyz). }
      rewrite ?Eyx, ?Eyz, ?Exz. reflexivity.
    + rewrite IH. reflexivity.
Qed.

Lemma np_sort_permutation (l l' : list Qc) :
  Permutation l l' -> np_sort l = np_sort l'.
Proof.
  unfold np_sort.
  induction 1 as [|x l l' _ IH|x y l|l l' l'' _ IH1 _ IH2]; simpl.
  - reflexivity.
  - rewrite IH. reflexivity.
  - apply insert_sorted_comm.
  - congruence.
Qed.

Lemma insert_sorted_perm (x : Qc) (l : list Qc) :
  Permutation (x :: l) (insert_sorted x l).
Proof.
  induction l as [|y l IH]; simpl.
  - reflexivity.
  - destruct (Qcleb x y); [reflexivity|].
    rewrite perm_swap. apply perm_skip. exact IH.
Qed.

Lemma np_sort_perm (l : list Qc) : Permutation l (np_sort l).
Proof.
  induction l as [|x l IH]; simpl.
  - constructor.
  - rewrite <- insert_sorted_perm. apply perm_skip. exact IH.
Qed.

Lemma np_sort_length (l : list Qc) : length (np_sort l) = length l.
Proof. symmetry. apply Permutation_length, np_sort_perm. Qed.

Lemma insert_sorted_sorted (x : Qc) (l : list Qc) :
  Sorted Qcle l -> Sorted Qcle (insert_sorted x l).
Proof.
  induction 1 as [|y l Hs IH Hhd]; simpl.
  - repeat constructor.
  - destruct (Qcleb x y) eqn:E.
    + apply Qcleb_le in E. repeat constructor; assumption.
    + apply Qcleb_gt in E. constructor; [exact IH|].
      destruct Hhd as [|z l Hyz]; simpl.
      * constructor. apply Qclt_le_weak, E.
      * destruct (Qcleb x z); constructor;
          [apply Qclt_le_weak, E | exact Hyz].
Qed.

(** [np_sort] returns the ascending rearrangement of its argument. *)
Lemma np_sort_sorted (l : list Qc) : Sorted Qcle (np_sort l).
Proof.
  induction l as [|x l IH]; simpl.
  - constructor.
  - apply insert_sorted_sorted, IH.
Qed.

(** ** Rounding and the sampling grid *)

Ltac Qc_to_Q :=
  unfold Qcle, Qclt, Qc_of_nat, Qc_of_Z, Qcdiv, Qcminus, Qcplus, Qcmult,
    Qcopp, Qcinv in *;
  cbn [this Q2Qc] in *;
  rewrite ?Qred_correct in *.

Lemma rint_floor_or_succ (q : Q) : rint q = Qfloor q \/ rint q = Qfloor q + 1.
Proof.
  unfold rint. destruct (q - inject_Z (Qfloor q) ?= 1 # 2)%Q; auto.
  destruct (Z.even (Qfloor q)); auto.
Qed.

Lemma rint_above_floor (q : Q) :
  rint q = Qfloor q + 1 -> (inject_Z (Qfloor q) < q)%Q.
Proof.
  unfold rint.
  destruct (q - inject_Z (Qfloor q) ?= 1 # 2)%Q eqn:E; intro H.
  - apply Qeq_alt in E. lra.
  - lia.
  - apply Qgt_alt in E. lra.
Qed.

Lemma rint_bounds (q : Q) (N : Z) :
  (0 <= q)%Q -> (q <= inject_Z N)%Q -> 0 <= rint q <= N.
Proof.
  intros H0 HN.
  assert (F0 : 0 <= Qfloor q).
  { change 0 with (Qfloor (inject_Z 0)). apply Qfloor_resp_le. exact H0. }
  assert (FN : Qfloor q <= N).
  { rewrite <- (Qfloor_Z N). apply Qfloor_resp_le. exact HN. }
  destruct (rint_floor_or_succ q) as [E|E].
  - lia.
  - pose proof (rint_above_floor q E) as Hlt.
    rewrite E. split; [lia|].
    destruct (Z.eq_dec (Qfloor q) N) as [EN|]; [|lia].
    rewrite EN in Hlt. lra.
Qed.

Lemma rint_inject_Z (z : Z) : rint (inject_Z z) = z.
Proof.
  unfold rint. rewrite Qfloor_Z.
  destruct (inject_Z z - inject_Z z ?= 1 # 2)%Q eqn:E.
  - apply Qeq_alt in E. lra.
  - reflexivity.
  - apply Qgt_alt in E. lra.
Qed.

Lemma Qceqb_eq (x y : Qc) : Qceqb x y = true <-> x = y.
Proof.
  unfold Qceqb. rewrite Qeq_bool_iff. split.
  - apply Qc_is_canon.
  - intros ->. reflexivity.
Qed.

Lemma Qceqb_neq (x y : Qc) : Qceqb x y = false <-> x <> y.
Proof.
  rewrite <- Qceqb_eq. destruct (Qceqb x y); split; congruence.
Qed.

Lemma Qc_of_Z_mult (a b : Z) : Qc_of_Z (a * b) = (Qc_of_Z a * Qc_of_Z b)%Qc.
Proof.
  apply Qc_is_canon. Qc_to_Q. rewrite inject_Z_mult. reflexivity.
Qed.

Lemma Qc_of_Z_opp (a : Z) : Qc_of_Z (- a) = (- Qc_of_Z a)%Qc.
Proof.
  apply Qc_is_canon. Qc_to_Q. rewrite inject_Z_opp. reflexivity.
Qed.

Lemma rint_comp (q q' : Q) : q == q' -> rint q = rint q'.
Proof.
  intro H. unfold rint. rewrite (Qfloor_comp _ _ H).
  set (f := Qfloor q'). rewrite H. reflexivity.
Qed.

Lemma rint_Qc_of_Z (z : Z) : rint (Qc_of_Z z) = z.
Proof.
  rewrite <- (rint_inject_Z z) at 2. apply rint_comp.
  unfold Qc_of_Z. cbn [this Q2Qc]. apply Qred_correct.
Qed.

(** ** Powers of two and the binary logarithm *)

Lemma pow2_Q (e : Z) : (this (pow2 e) == 2 ^ e)%Q.
Proof.
  unfold pow2. destruct (0 <=? e) eqn:E.
  - apply Z.leb_le in E. unfold Qc_of_Z. cbn [this Q2Qc].
    rewrite Qred_correct. apply (Zpower_Qpower 2 e E).
  - apply Z.leb_gt in E. unfold Qcinv, Qc_of_Z. cbn [this Q2Qc].
    rewrite !Qred_correct.
    rewrite (Zpower_Qpower 2 (- e)) by lia.
    rewrite <- Qpower_opp. rewrite Z.opp_involutive. reflexivity.
Qed.

Lemma Q2_pow_pos (e : Z) : (0 < 2 ^ e)%Q.
Proof. apply Qpower_0_lt. reflexivity. Qed.

Lemma Q2_pow_add (a b : Z) : (2 ^ (a + b) == 2 ^ a * 2 ^ b)%Q.
Proof. apply Qpower_plus. discriminate. Qed.

Lemma pow2_pos (e : Z) : (0 < pow2 e)%Qc.
Proof. unfold Qclt. rewrite pow2_Q. apply Q2_pow_pos. Qed.

Lemma pow2_neq_0 (e : Z) : pow2 e <> 0%Qc.
Proof.
  intro E. pose proof (pow2_pos e) as P. rewrite E in P.
  exact (Qclt_not_le _ _ P (Qcle_refl _)).
Qed.

Lemma pow2_add (a b : Z) : pow2 (a + b) = (pow2 a * pow2 b)%Qc.
Proof.
  apply Qc_is_canon. unfold Qcmult. cbn [this Q2Qc].
  rewrite Qred_correct, !pow2_Q. apply Q2_pow_add.
Qed.

Lemma pow2_le (a b : Z) : a <= b -> (pow2 a <= pow2 b)%Qc.
Proof.
  intro H. unfold Qcle. rewrite !pow2_Q.
  apply Qpower_le_compat_l; [exact H|discriminate].
Qed.

Lemma pow2_lt (a b : Z) : a < b -> (pow2 a < pow2 b)%Qc.
Proof.
  intro H. unfold Qclt. rewrite !pow2_Q.
  apply Qpower_lt_compat_l; [exact H|reflexivity].
Qed.

Lemma pow2_le_inv (a b : Z) : (pow2 a <= pow2 b)%Qc -> a <= b.
Proof.
  unfold Qcle. rewrite !pow2_Q. intro H.
  apply (Qpower_le_compat_l_inv 2); [exact H|reflexivity].
Qed.

Lemma pow2_of_nonneg (e : Z) : 0 <= e -> pow2 e = Qc_of_Z (2 ^ e).
Proof.
  intro H. unfold pow2.
  replace (0 <=? e) with true by (symmetry; apply Z.leb_le; exact H).
  reflexivity.
Qed.

Lemma Qc_log2_spec (a : Qc) :
  (0 < a)%Qc ->
  (pow2 (Qc_log2 a) <= a)%Qc /\ (a < pow2 (Qc_log2 a + 1))%Qc.
Proof.
  intro Ha.
  set (n := Qnum a). set (d := Zpos (Qden a)).
  assert (Hn : 0 < n).
  { unfold Qclt, Qlt in Ha. cbn in Ha. fold n in Ha. lia. }
  assert (Hd : 0 < d) by (unfold d; lia).
  set (e0 := Z.log2 n - Z.log2 d).
  destruct (Z.log2_spec n Hn) as [Ln0 Ln1].
  destruct (Z.log2_spec d Hd) as [Ld0 Ld1].
  pose proof (Z.log2_nonneg n) as Nn. pose proof (Z.log2_nonneg d) as Nd.
  assert (Had : (this a * inject_Z d == inject_Z n)%Q).
  { unfold d, n. destruct a as [[an ad] ?]. cbn [this Qnum Qden].
    unfold Qeq, Qmult, inject_Z. cbn [Qnum Qden]. lia. }
  assert (Qd : (0 < inject_Z d)%Q).
  { change 0%Q with (inject_Z 0). rewrite <- Zlt_Qlt. exact Hd. }
  assert (B : (2 ^ (e0 - 1) < this a)%Q /\ (this a < 2 ^ (e0 + 1))%Q).
  { split.
    - apply (Qmult_lt_r _ _ (inject_Z d) Qd). rewrite Had.
      apply Qlt_le_trans with (2 ^ (e0 - 1) * inject_Z (2 ^ Z.succ (Z.log2 d)))%Q.
      + apply Qmult_lt_l; [apply Q2_pow_pos|]. rewrite <- Zlt_Qlt. exact Ld1.
      + rewrite (Zpower_Qpower 2 (Z.succ (Z.log2 d))) by lia.
        rewrite <- Q2_pow_add.
        replace (e0 - 1 + Z.succ (Z.log2 d)) with (Z.log2 n) by (unfold e0; lia).
        rewrite <- (Zpower_Qpower 2 (Z.log2 n)) by lia.
        rewrite <- Zle_Qle. exact Ln0.
    - apply (Qmult_lt_r _ _ (inject_Z d) Qd). rewrite Had.
      apply Qlt_le_trans with (2 ^ (e0 + 1) * inject_Z (2 ^ Z.log2 d))%Q.
      + rewrite (Zpower_Qpower 2 (Z.log2 d)) by lia.
        rewrite <- Q2_pow_add.
        replace (e0 + 1 + Z.log2 d) with (Z.succ (Z.log2 n)) by (unfold e0; lia).
        rewrite <- (Zpower_Qpower 2 (Z.succ (Z.log2 n))) by lia.
        rewrite <- Zlt_Qlt. exact Ln1.
      + apply Qmult_le_l; [apply Q2_pow_pos|]. rewrite <- Zle_Qle. exact Ld0. }
  destruct B as [B0 B1].
  unfold Qc_log2. fold n d e0.
  destruct (Qcleb (pow2 e0) a) eqn:E.
  - apply Qcleb_le in E. split; [exact E|].
    unfold Qclt. rewrite pow2_Q. exact B1.
  - apply Qcleb_gt in E. split.
    + unfold Qcle. rewrite pow2_Q. apply Qlt_le_weak. exact B0.
    + replace (e0 - 1 + 1) with e0 by lia. exact E.
Qed.

(** ** Rounding to a format *)

Lemma Qc_of_Z_le (a b : Z) : a <= b -> (Qc_of_Z a <= Qc_of_Z b)%Qc.
Proof.
  intro H. unfold Qcle, Qc_of_Z. cbn [this Q2Qc]. rewrite !Qred_correct.
  rewrite <- Zle_Qle. exact H.
Qed.

Lemma Qcabs_Qc_of_Z (m : Z) : Qcabs (Qc_of_Z m) = Qc_of_Z (Z.abs m).
Proof.
  destruct (Z_le_gt_dec 0 m) as [H|H].
  - rewrite Z.abs_eq by exact H. apply Qcabs_pos.
    change 0%Qc with (Qc_of_Z 0). apply Qc_of_Z_le. exact H.
  - rewrite Z.abs_neq by lia. rewrite Qc_of_Z_opp. apply Qcabs_neg.
    change 0%Qc with (Qc_of_Z 0). apply Qc_of_Z_le. lia.
Qed.

Lemma Qcabs_pow2 (e : Z) : Qcabs (pow2 e) = pow2 e.
Proof. apply Qcabs_pos. apply Qclt_le_weak, pow2_pos. Qed.

Lemma Qcabs_pos_lt (q : Qc) : q <> 0%Qc -> (0 < Qcabs q)%Qc.
Proof.
  intro H. destruct (Qcle_lt_or_eq _ _ (Qcabs_nonneg q)) as [L|E];
    [exact L|]. symmetry in E. apply Qcabs_null in E. contradiction.
Qed.

Lemma Qcabs_signed (q : Qc) :
  (if Qcltb q 0%Qc then (- Qcabs q)%Qc else Qcabs q) = q.
Proof.
  destruct (Qcltb q 0%Qc) eqn:E.
  - apply Qcltb_lt in E. rewrite Qcabs_neg by (apply Qclt_le_weak; exact E).
    apply Qcopp_involutive.
  - apply Qcltb_ge in E. apply Qcabs_pos. exact E.
Qed.

Lemma rint_Qcdiv (a b : Qc) : rint (a / b) = rint (a / b)%Qc.
Proof.
  apply rint_comp. unfold Qcdiv, Qcmult, Qcinv, Qdiv. cbn [this Q2Qc].
  rewrite !Qred_correct. reflexivity.
Qed.

(** A multiple of [2^e] is left alone by rounding to a multiple of [2^k]
    for [k <= e]. *)
Lemma round_to_ulp_exact (m e k : Z) :
  k <= e ->
  (Qc_of_Z (rint ((Qc_of_Z m * pow2 e)%Qc / pow2 k)) * pow2 k
   = Qc_of_Z m * pow2 e)%Qc.
Proof.
  intro H. rewrite rint_Qcdiv.
  assert (E : (Qc_of_Z m * pow2 e / pow2 k
               = Qc_of_Z (m * 2 ^ (e - k)))%Qc).
  { rewrite Qc_of_Z_mult, <- pow2_of_nonneg by lia.
    replace e with ((e - k) + k) at 1 by lia. rewrite pow2_add.
    field. apply pow2_neq_0. }
  rewrite E, rint_Qc_of_Z, Qc_of_Z_mult, <- pow2_of_nonneg by lia.
  replace e with ((e - k) + k) at 2 by lia. rewrite pow2_add. ring.
Qed.

(** The significand that rounding leaves has at most [p + 1] bits. *)
Lemma significand_bounds (a : Qc) (e p : Z) :
  (0 < a)%Qc -> Qc_log2 a <= e -> 0 <= p ->
  0 <= rint (a / pow2 (e - p)) <= 2 ^ (p + 1).
Proof.
  intros Ha He Hp. rewrite rint_Qcdiv.
  destruct (Qc_log2_spec a Ha) as [_ Hlt].
  pose proof (pow2_pos (e - p)) as Hu.
  assert (Hup : (a < pow2 (p + 1) * pow2 (e - p))%Qc).
  { rewrite <- pow2_add. replace (p + 1 + (e - p)) with (e + 1) by lia.
    apply Qclt_le_trans with (1 := Hlt). apply pow2_le. lia. }
  assert (Ea : (a = a / pow2 (e - p) * pow2 (e - p))%Qc).
  { field. apply pow2_neq_0. }
  set (x := (a / pow2 (e - p))%Qc) in *.
  apply rint_bounds.
  - change (0 <= x)%Qc. apply Qcnot_lt_le. intro Hx.
    apply (Qclt_not_le _ _ Ha). rewrite Ea.
    apply Qclt_le_weak.
    replace 0%Qc with (0 * pow2 (e - p))%Qc by ring.
    apply Qcmult_lt_compat_r; assumption.
  - assert (Hx : (x <= Qc_of_Z (2 ^ (p + 1)))%Qc).
    { rewrite <- pow2_of_nonneg by lia.
      apply (Qcmult_lt_0_le_reg_r _ _ (pow2 (e - p)) Hu).
      rewrite <- Ea. apply Qclt_le_weak. exact Hup. }
    unfold Qcle, Qc_of_Z in Hx. cbn [this Q2Qc] in Hx.
    rewrite Qred_correct in Hx. exact Hx.
Qed.

(** Whatever [astype(np.float32)] returns that is finite is a binary32
    value. *)
Lemma float32_of_Qc_binary32 (q v : Qc) :
  float32_of_Qc q = Finite v -> binary32_value v.
Proof.
  unfold float32_of_Qc. destruct (Qceqb q 0%Qc) eqn:E0.
  - intro H. injection H as <-. exists 0, 0. split; [|split; [|split]].
    + change (Qc_of_Z 0) with 0%Qc. ring.
    + vm_compute. discriminate.
    + lia.
    + rewrite Qcabs_pos by apply Qcle_refl. apply pow2_pos.
  - apply Qceqb_neq in E0.
    set (a := Qcabs q). set (e := Z.max (Qc_log2 a) (-126)).
    set (m := rint (a / pow2 (e - 23))).
    destruct (Qcleb (pow2 128) (Qc_of_Z m * pow2 (e - 23))%Qc) eqn:EO;
      [discriminate|].
    apply Qcleb_gt in EO.
    assert (Hm : 0 <= m <= 2 ^ 24).
    { apply (significand_bounds a e 23).
      - apply Qcabs_pos_lt. exact E0.
      - unfold e. lia.
      - lia. }
    assert (Hv : Qcabs (Qc_of_Z m * pow2 (e - 23))%Qc
                 = (Qc_of_Z m * pow2 (e - 23))%Qc).
    { rewrite Qcabs_Qcmult, Qcabs_Qc_of_Z, Qcabs_pow2, Z.abs_eq by lia.
      reflexivity. }
    intro H. injection H as <-.
    destruct (Qcltb q 0%Qc).
    + exists (- m), (e - 23). split; [|split; [|split]].
      * rewrite Qc_of_Z_opp. ring.
      * rewrite Z.abs_opp, Z.abs_eq by lia. lia.
      * unfold e. lia.
      * rewrite Qcabs_opp, Hv. exact EO.
    + exists m, (e - 23). split; [|split; [|split]].
      * reflexivity.
      * rewrite Z.abs_eq by lia. lia.
      * unfold e. lia.
      * rewrite Hv. exact EO.
Qed.

(** The conversion to float64 keeps every binary32 value. *)
Lemma float64_of_Qc_binary32 (v : Qc) :
  binary32_value v -> float64_of_Qc v = Finite v.
Proof.
  intros (m & e & Ev & Hm & He & Hlt).
  unfold float64_of_Qc. destruct (Qceqb v 0%Qc) eqn:E0.
  - apply Qceqb_eq in E0. rewrite E0. reflexivity.
  - apply Qceqb_neq in E0.
    assert (Ea : Qcabs v = (Qc_of_Z (Z.abs m) * pow2 e)%Qc).
    { rewrite Ev, Qcabs_Qcmult, Qcabs_Qc_of_Z, Qcabs_pow2. reflexivity. }
    assert (Hpos : (0 < Qcabs v)%Qc) by (apply Qcabs_pos_lt; exact E0).
    destruct (Qc_log2_spec (Qcabs v) Hpos) as [Hlo _].
    assert (HL : Qc_log2 (Qcabs v) <= 24 + e).
    { apply pow2_le_inv. apply Qcle_trans with (1 := Hlo).
      rewrite Ea, pow2_add. apply Qcmult_le_compat_r.
      - rewrite pow2_of_nonneg by lia. apply Qc_of_Z_le. exact Hm.
      - apply Qclt_le_weak, pow2_pos. }
    set (k := Z.max (Qc_log2 (Qcabs v)) (-1022) - 52).
    assert (Hk : k <= e) by (unfold k; lia).
    assert (R : (Qc_of_Z (rint (Qcabs v / pow2 k)) * pow2 k = Qcabs v)%Qc).
    { rewrite Ea. apply round_to_ulp_exact. exact Hk. }
    cbv zeta. fold k. rewrite R.
    replace (Qcleb (pow2 1024) (Qcabs v)) with false.
    + rewrite Qcabs_signed. reflexivity.
    + symmetry. apply Qcleb_gt. apply Qclt_trans with (1 := Hlt).
      apply pow2_lt. lia.
Qed.

Lemma float64_of_binary32 (x : npfloat) :
  binary32_cell x -> float64_of x = x.
Proof.
  destruct x as [v|]; cbn [binary32_cell float64_of]; [|reflexivity].
  apply float64_of_Qc_binary32.
Qed.

Lemma float32_of_binary32 (x : npfloat) : binary32_cell (float32_of x).
Proof.
  destruct x as [q|]; cbn [float32_of]; [|exact I].
  destruct (float32_of_Qc q) as [v|] eqn:E; [|exact I].
  exact (float32_of_Qc_binary32 q v E).
Qed.

(** The float32 cast does round: one third is not a binary32 value. *)
Lemma float32_of_third :
  float32_of_Qc (Q2Qc (1 # 3)) = Finite (Q2Qc (11184811 # 33554432)).
Proof. vm_compute. reflexivity. Qed.

(** ** The sampling grid *)

Lemma Qc_of_nat_nonneg (n : nat) : (0 <= Qc_of_nat n)%Qc.
Proof.
  Qc_to_Q. change 0%Q with (inject_Z 0). rewrite <- Zle_Qle. lia.
Qed.

Lemma Qc_of_nat_le (a b : nat) : (a <= b)%nat -> (Qc_of_nat a <= Qc_of_nat b)%Qc.
Proof. intro H. Qc_to_Q. rewrite <- Zle_Qle. lia. Qed.

Lemma Qc_of_nat_pos (n : nat) : (0 < n)%nat -> (0 < Qc_of_nat n)%Qc.
Proof.
  intro H. Qc_to_Q. change 0%Q with (inject_Z 0). rewrite <- Zlt_Qlt. lia.
Qed.

Lemma Qc_scale_bounds (a b d : Qc) :
  (0 <= a)%Qc -> (a <= b)%Qc -> (0 < b)%Qc -> (0 <= d)%Qc ->
  (0 <= a * (d / b) + 0)%Qc /\ (a * (d / b) + 0 <= d)%Qc.
Proof.
  intros Ha Hab Hb Hd.
  assert (Hq : (0 <= d / b)%Qc).
  { Qc_to_Q. apply Qmult_le_0_compat; [exact Hd|].
    apply Qinv_le_0_compat. lra. }
  rewrite Qcplus_0_r. split.
  - rewrite <- (Qcmult_0_l (d / b)). apply Qcmult_le_compat_r; assumption.
  - assert (Hb' : b <> 0%Qc).
    { intro E. rewrite E in Hb. exact (Qclt_not_le _ _ Hb (Qcle_refl _)). }
    rewrite <- (Qcmult_div_r d b Hb') at 2.
    apply Qcmult_le_compat_r; assumption.
Qed.

(** Every point of the grid over [0, T-1] rounds to a valid index. *)
Lemma np_linspace_bounds (T : nat) (num : Z) (points : list Qc) :
  (1 <= T)%nat ->
  np_linspace 0%Qc (Qc_of_Z (Z.of_nat T - 1)) num = Ok points ->
  Forall (fun k => 0 <= k < Z.of_nat T) (np_around_int points).
Proof.
  intros HT. unfold np_linspace.
  destruct (num <? 0); [discriminate|].
  intro E. injection E as <-.
  unfold np_around_int. rewrite map_map. apply Forall_forall.
  intros k Hk. apply in_map_iff in Hk as (i & <- & Hi).
  apply in_seq in Hi.
  assert (Hstop : (0 <= Qc_of_Z (Z.of_nat T - 1))%Qc).
  { Qc_to_Q. change 0%Q with (inject_Z 0). rewrite <- Zle_Qle. lia. }
  assert (R : forall q : Qc, (0 <= q)%Qc -> (q <= Qc_of_Z (Z.of_nat T - 1))%Qc ->
              0 <= rint q < Z.of_nat T).
  { intros q H0 H1.
    assert (0 <= rint q <= Z.of_nat T - 1); [|lia].
    apply rint_bounds; [exact H0|].
    unfold Qcle, Qc_of_Z in H1. cbn [this Q2Qc] in H1.
    rewrite Qred_correct in H1. exact H1. }
  destruct ((1 <? Z.to_nat num)%nat && (i =? Z.to_nat num - 1)%nat) eqn:Elast.
  - apply R; [exact Hstop | apply Qcle_refl].
  - destruct (0 <? Z.to_nat num - 1)%nat eqn:Ediv.
    + apply Nat.ltb_lt in Ediv.
      replace (Qc_of_Z (Z.of_nat T - 1) - 0)%Qc
        with (Qc_of_Z (Z.of_nat T - 1)) by ring.
      apply andb_false_iff in Elast as [Elast|Elast].
      * apply Nat.ltb_ge in Elast. lia.
      * apply Nat.eqb_neq in Elast.
        destruct (Qc_scale_bounds (Qc_of_nat i) (Qc_of_nat (Z.to_nat num - 1))
                    (Qc_of_Z (Z.of_nat T - 1))) as [B0 B1].
        -- apply Qc_of_nat_nonneg.
        -- apply Qc_of_nat_le. lia.
        -- apply Qc_of_nat_pos. exact Ediv.
        -- exact Hstop.
        -- apply R; assumption.
    + apply Nat.ltb_ge in Ediv.
      assert (i = 0%nat) by lia. subst i.
      change (Qc_of_nat 0) with 0%Qc.
      replace (0 * (Qc_of_Z (Z.of_nat T - 1) - 0) + 0)%Qc with 0%Qc by ring.
      apply R; [apply Qcle_refl | exact Hstop].
Qed.

(** ** Fancy indexing *)

Lemma take_length (xs : list Qc) (ks : list Z) (vs : list Qc) :
  take xs ks = Ok vs -> length vs = length ks.
Proof.
  revert vs. induction ks as [|k ks IH]; simpl; intros vs E.
  - injection E as <-. reflexivity.
  - destruct (getitem xs k); [|discriminate]. simpl in E.
    destruct (take xs ks) as [vs'|]; [|discriminate]. simpl in E.
    injection E as <-. simpl. rewrite (IH vs' eq_refl). reflexivity.
Qed.

Lemma take_in_range (xs : list Qc) (ks : list Z) :
  Forall (fun k => 0 <= k < Z.of_nat (length xs)) ks ->
  take xs ks = Ok (map (fun k => nth (Z.to_nat k) xs 0%Qc) ks).
Proof.
  induction 1 as [|k ks Hk _ IH]; simpl.
  - reflexivity.
  - unfold getitem.
    replace ((0 <=? k) && (k <? Z.of_nat (length xs))) with true
      by (symmetry; apply andb_true_iff; split;
          [apply Z.leb_le | apply Z.ltb_lt]; lia).
    simpl. rewrite IH. reflexivity.
Qed.

Lemma take_nil_index (k : Z) (ks : list Z) : take [] (k :: ks) = Err IndexError.
Proof. destruct k; reflexivity. Qed.

Lemma np_linspace_length (a b : Qc) (num : Z) (points : list Qc) :
  np_linspace a b num = Ok points ->
  0 <= num /\ length points = Z.to_nat num.
Proof.
  unfold np_linspace. destruct (num <? 0) eqn:E; [discriminate|].
  intro H. injection H as <-. apply Z.ltb_ge in E.
  split; [exact E|]. rewrite length_map, length_seq. reflexivity.
Qed.

Lemma channel_features_length w n c f :
  channel_features w n c = Ok f ->
  0 <= n /\ length f = (Z.to_nat n + 1)%nat.
Proof.
  unfold channel_features.
  destruct (np_linspace _ _ n) as [pts|] eqn:EL; [|discriminate]. simpl.
  destruct (take _ _) as [vs|] eqn:ET; [|discriminate]. simpl.
  intro H. injection H as <-.
  apply np_linspace_length in EL as [Hn EL]. apply take_length in ET.
  split; [exact Hn|].
  rewrite length_app, length_map, ET. unfold np_around_int.
  rewrite length_map, EL. reflexivity.
Qed.

Lemma np_linspace_ok (a b : Qc) (num : Z) :
  0 <= num -> exists points, np_linspace a b num = Ok points.
Proof.
  intro H. unfold np_linspace.
  replace (num <? 0) with false by (symmetry; apply Z.ltb_ge; lia).
  eexists. reflexivity.
Qed.

(** With at least one time step every channel yields its features. *)
Lemma channel_features_ok w n c points :
  (1 <= shape0 w)%nat ->
  np_linspace 0%Qc (Qc_of_Z (Z.of_nat (shape0 w) - 1)) n = Ok points ->
  channel_features w n c =
    Ok (sampled_features (column w c) (np_around_int points)).
Proof.
  intros HT EL. unfold channel_features, sampled_features.
  assert (HL : length (np_sort (column w c)) = shape0 w).
  { rewrite np_sort_length. unfold column. apply length_map. }
  rewrite HL, EL. simpl.
  rewrite take_in_range.
  - simpl. rewrite map_map. reflexivity.
  - rewrite HL. eapply np_linspace_bounds; eassumption.
Qed.

(** ** Writing a segment into a row *)

Section ListWrites.
Context {A : Type}.
Implicit Types (xs ys : list A) (m : list (list A)).

Lemma firstn_length_app xs ys : firstn (length xs) (xs ++ ys) = xs.
Proof. induction xs as [|x xs IH]; simpl; [destruct ys|rewrite IH]; reflexivity. Qed.

Lemma skipn_length_app xs ys k :
  skipn (length xs + k) (xs ++ ys) = skipn k ys.
Proof. induction xs as [|x xs IH]; simpl; [reflexivity|exact IH]. Qed.

Lemma set_nth_app xs ys (x v : A) :
  set_nth (length xs) v (xs ++ x :: ys) = xs ++ v :: ys.
Proof.
  unfold set_nth. rewrite firstn_length_app.
  replace (S (length xs)) with (length xs + 1)%nat by lia.
  rewrite skipn_length_app. reflexivity.
Qed.

Lemma assign_slice_app xs old ys (pts : list A) :
  length old = length pts ->
  assign_slice (length xs) pts (xs ++ old ++ ys) = xs ++ pts ++ ys.
Proof.
  intro L. unfold assign_slice.
  rewrite firstn_length_app, skipn_length_app, <- L.
  rewrite <- (Nat.add_0_r (length old)), skipn_length_app. reflexivity.
Qed.

Lemma write_segment xs old ys (x mean : A) (pts : list A) :
  length old = length pts ->
  set_nth (length xs + length pts) mean
          (assign_slice (length xs) pts (xs ++ old ++ x :: ys))
  = xs ++ (pts ++ [mean]) ++ ys.
Proof.
  intro L. rewrite (assign_slice_app _ _ _ _ L).
  rewrite <- length_app, app_assoc, set_nth_app.
  rewrite <- !app_assoc. reflexivity.
Qed.

Lemma nth_error_set_nth (k : nat) (v : A) xs :
  (k < length xs)%nat -> nth_error (set_nth k v xs) k = Some v.
Proof.
  revert k. induction xs as [|x xs IH]; intros [|k] H; simpl in *;
    try lia; [reflexivity|].
  apply IH. lia.
Qed.

Lemma set_nth_set_nth (k : nat) (u v : A) xs :
  (k < length xs)%nat -> set_nth k v (set_nth k u xs) = set_nth k v xs.
Proof.
  revert k. induction xs as [|x xs IH]; intros [|k] H; simpl in H;
    try lia; [reflexivity|].
  unfold set_nth in *. simpl. f_equal. apply IH. lia.
Qed.

Lemma update_row_at (k : nat) (f : list A -> list A) m (r : list A) :
  nth_error m k = Some r -> update_row k f m = set_nth k (f r) m.
Proof. unfold update_row. intros ->. reflexivity. Qed.
End ListWrites.

Lemma nth_error_Some_lt {A : Type} (l : list A) (k : nat) (x : A) :
  nth_error l k = Some x -> (k < length l)%nat.
Proof. intro H. apply nth_error_Some. congruence. Qed.

(** One pass of the inner loop fills one segment of the axis row. *)
Lemma ecdf_channel_step_spec w n axis m i c xs old x ys :
  nth_error m axis = Some (xs ++ old ++ x :: ys) ->
  length xs = (i * (Z.to_nat n + 1))%nat ->
  length old = Z.to_nat n ->
  ecdf_channel_step w n axis m (i, c) =
    (f <- channel_features w n c ;; Ok (set_nth axis (xs ++ f ++ ys) m)).
Proof.
  intros Hrow Hxs Hold.
  unfold ecdf_channel_step, channel_features.
  destruct (np_linspace _ _ n) as [pts|] eqn:EL; [|reflexivity]. simpl.
  destruct (take _ _) as [vs|] eqn:ET; [|reflexivity]. simpl.
  apply np_linspace_length in EL as [_ EL]. apply take_length in ET.
  unfold np_around_int in ET. rewrite length_map, EL in ET.
  pose proof (nth_error_Some_lt _ _ _ Hrow) as Hlt.
  rewrite (update_row_at _ _ _ _ Hrow).
  rewrite (update_row_at _ _ _ _ (nth_error_set_nth _ _ _ Hlt)).
  rewrite set_nth_set_nth by exact Hlt.
  rewrite <- Hxs.
  replace (Z.to_nat n) with (length (map Finite vs))
    by (rewrite length_map; exact ET).
  rewrite write_segment; [reflexivity|].
  rewrite length_map. congruence.
Qed.

Lemma zero_row_segments (N : nat) :
  zero_row ((N + 1) * 3) =
  (zero_row N ++ [Finite 0%Qc]) ++ (zero_row N ++ [Finite 0%Qc])
  ++ (zero_row N ++ [Finite 0%Qc]).
Proof.
  unfold zero_row.
  change [Finite 0%Qc] with (repeat (Finite 0%Qc) 1).
  rewrite <- !repeat_app. f_equal. lia.
Qed.

(** One pass of the outer loop fills the three segments of its row. *)
Lemma ecdf_axis_step_spec w n m axis c0 c1 c2 :
  nth_error m axis = Some (zero_row ((Z.to_nat n + 1) * 3)) ->
  ecdf_axis_step w n m (axis, [c0; c1; c2]) =
    (f0 <- channel_features w n c0 ;;
     f1 <- channel_features w n c1 ;;
     f2 <- channel_features w n c2 ;;
     Ok (set_nth axis (f0 ++ f1 ++ f2) m)).
Proof.
  intro Hrow. rewrite zero_row_segments in Hrow.
  pose proof (nth_error_Some_lt _ _ _ Hrow) as Hlt.
  unfold ecdf_axis_step, enumerate. cbn [enumerate_from for_each].
  set (z := Finite 0%Qc) in *. set (N := Z.to_nat n) in *.
  assert (Hz : length (zero_row N) = N) by apply repeat_length.
  rewrite (ecdf_channel_step_spec w n axis m 0 c0 [] (zero_row N) z
             ((zero_row N ++ [z]) ++ zero_row N ++ [z]));
    [| rewrite Hrow, <- !app_assoc; reflexivity | reflexivity | exact Hz].
  destruct (channel_features w n c0) as [f0|] eqn:E0; [|reflexivity].
  cbn [bind app].
  apply channel_features_length in E0 as [_ L0]. fold N in L0.
  rewrite (ecdf_channel_step_spec w n axis _ 1 c1 f0 (zero_row N) z
             (zero_row N ++ [z]));
    [| rewrite nth_error_set_nth by exact Hlt;
       rewrite <- !app_assoc; reflexivity
     | fold N; lia | exact Hz].
  destruct (channel_features w n c1) as [f1|] eqn:E1; [|reflexivity].
  cbn [bind].
  apply channel_features_length in E1 as [_ L1]. fold N in L1.
  rewrite set_nth_set_nth by exact Hlt.
  rewrite (ecdf_channel_step_spec w n axis _ 2 c2 (f0 ++ f1) (zero_row N) z
             []);
    [| rewrite nth_error_set_nth by exact Hlt;
       rewrite <- !app_assoc; reflexivity
     | rewrite length_app; fold N; lia | exact Hz].
  destruct (channel_features w n c2) as [f2|] eqn:E2; [|reflexivity].
  cbn [bind].
  rewrite set_nth_set_nth by exact Hlt.
  rewrite app_nil_r, <- app_assoc. reflexivity.
Qed.

Lemma np_zeros2_ecdf (n : Z) :
  0 <= n ->
  np_zeros2 3 ((n + 1) * 3) =
    Ok {| dtype2 := Float64;
          cells2 := repeat (zero_row ((Z.to_nat n + 1) * 3)) 3 |}.
Proof.
  intro Hn. unfold np_zeros2.
  replace ((n + 1) * 3 <? 0) with false by (symmetry; apply Z.ltb_ge; lia).
  simpl orb. cbv iota. unfold zero_row. repeat f_equal.
  rewrite Z2Nat.inj_mul, Z2Nat.inj_add by lia. reflexivity.
Qed.

Lemma compute_ecdf_features_9 (w : ndarray2) (n : Z) :
  shape1 w = 9%nat -> 0 <= n ->
  compute_ecdf_features w n = ecdf_layout w n.
Proof.
  intros H9 Hn. unfold compute_ecdf_features, ecdf_layout.
  rewrite H9. cbn [Nat.eqb negb andb].
  rewrite (np_zeros2_ecdf n Hn). cbn [bind cells2 dtype2 repeat].
  unfold enumerate, axes_indices. cbn [enumerate_from for_each mapM].
  rewrite (ecdf_axis_step_spec w n _ 0 0 3 6) by reflexivity.
  destruct (channel_features w n 0) as [x0|]; [|reflexivity].
  destruct (channel_features w n 3) as [x1|]; [|reflexivity].
  destruct (channel_features w n 6) as [x2|]; [|reflexivity].
  cbn [bind].
  rewrite (ecdf_axis_step_spec w n _ 1 1 4 7) by reflexivity.
  destruct (channel_features w n 1) as [y0|]; [|reflexivity].
  destruct (channel_features w n 4) as [y1|]; [|reflexivity].
  destruct (channel_features w n 7) as [y2|]; [|reflexivity].
  cbn [bind].
  rewrite (ecdf_axis_step_spec w n _ 2 2 5 8) by reflexivity.
  destruct (channel_features w n 2) as [z0|]; [|reflexivity].
  destruct (channel_features w n 5) as [z1|]; [|reflexivity].
  destruct (channel_features w n 8) as [z2|]; [|reflexivity].
  cbn [bind concat]. rewrite !app_nil_r. reflexivity.
Qed.

(** A negative [n_points] is rejected by numpy once the channel check has
    passed. *)
Lemma compute_ecdf_features_9_negative (w : ndarray2) (n : Z) :
  shape1 w = 9%nat -> n < 0 ->
  exists msg, compute_ecdf_features w n = Err (ValueError msg).
Proof.
  intros H9 Hn. unfold compute_ecdf_features.
  rewrite H9. cbn [Nat.eqb negb andb].
  destruct (Z.eq_dec n (-1)) as [->|Hne].
  - eexists. reflexivity.
  - unfold np_zeros2.
    replace ((n + 1) * 3 <? 0) with true by (symmetry; apply Z.ltb_lt; lia).
    eexists. reflexivity.
Qed.

Lemma firstn_exact {A : Type} (k : nat) (xs ys : list A) :
  length xs = k -> firstn k (xs ++ ys) = xs.
Proof. intros <-. apply firstn_length_app. Qed.

Lemma skipn_exact {A : Type} (k : nat) (xs ys : list A) :
  length xs = k -> skipn k (xs ++ ys) = ys.
Proof.
  intros <-. rewrite <- (Nat.add_0_r (length xs)). apply skipn_length_app.
Qed.

Lemma segment_of_three {A : Type} (n : Z) (f0 f1 f2 : list A) :
  length f0 = (Z.to_nat n + 1)%nat ->
  length f1 = (Z.to_nat n + 1)%nat ->
  length f2 = (Z.to_nat n + 1)%nat ->
  segment n 0 (f0 ++ f1 ++ f2) = f0 /\
  segment n 1 (f0 ++ f1 ++ f2) = f1 /\
  segment n 2 (f0 ++ f1 ++ f2) = f2.
Proof.
  intros L0 L1 L2. unfold segment.
  set (W := (Z.to_nat n + 1)%nat) in *. repeat split.
  - simpl skipn. apply firstn_exact, L0.
  - rewrite (skipn_exact (1 * W) f0) by lia. apply firstn_exact, L1.
  - rewrite app_assoc, (skipn_exact (2 * W) (f0 ++ f1))
      by (rewrite length_app; lia).
    rewrite <- L2. apply firstn_all.
Qed.

Ltac destruct_channel w n c f E :=
  destruct (channel_features w n c) as [f|] eqn:E; [|discriminate].

(** Reading a block back: every segment is the cast of the features of
    its channel. *)
Lemma ecdf_layout_segment (w : ndarray2) (n : Z) (M : farray2) (a i : nat) :
  ecdf_layout w n = Ok M -> (a < 3)%nat -> (i < 3)%nat ->
  exists f, channel_features w n (3 * i + a) = Ok f /\
            segment n i (nth a (cells2 M) []) = map float32_of f.
Proof.
  unfold ecdf_layout, axes_indices. cbn [mapM].
  destruct_channel w n 0%nat x0 Ex0. destruct_channel w n 3%nat x1 Ex1.
  destruct_channel w n 6%nat x2 Ex2. cbn [bind].
  destruct_channel w n 1%nat y0 Ey0. destruct_channel w n 4%nat y1 Ey1.
  destruct_channel w n 7%nat y2 Ey2. cbn [bind].
  destruct_channel w n 2%nat z0 Ez0. destruct_channel w n 5%nat z1 Ez1.
  destruct_channel w n 8%nat z2 Ez2. cbn [bind concat map].
  rewrite !app_nil_r, !map_app.
  intros E Ha Hi. injection E as <-. cbn [cells2].
  pose proof (fun f c (H : channel_features w n c = Ok f) =>
                eq_trans (length_map float32_of f)
                         (proj2 (channel_features_length w n c f H))) as L.
  destruct (segment_of_three n _ _ _ (L _ _ Ex0) (L _ _ Ex1) (L _ _ Ex2))
    as (SX0 & SX1 & SX2).
  destruct (segment_of_three n _ _ _ (L _ _ Ey0) (L _ _ Ey1) (L _ _ Ey2))
    as (SY0 & SY1 & SY2).
  destruct (segment_of_three n _ _ _ (L _ _ Ez0) (L _ _ Ez1) (L _ _ Ez2))
    as (SZ0 & SZ1 & SZ2).
  destruct a as [|[|[|a]]]; [| | |lia];
    (destruct i as [|[|[|i]]]; [| | |lia]);
    cbn [nth Nat.mul Nat.add]; eexists; (split; [eassumption|assumption]).
Qed.

(** A block is returned as soon as the nine channels yield features, and
    it has three rows of [3 * (n_points + 1)] cells of dtype float32. *)
Lemma ecdf_layout_ok (w : ndarray2) (n : Z) :
  (forall c, (c < 9)%nat -> exists f, channel_features w n c = Ok f) ->
  exists block,
    ecdf_layout w n = Ok {| dtype2 := Float32; cells2 := block |} /\
    length block = 3%nat /\
    Forall (fun row => length row = (3 * (Z.to_nat n + 1))%nat) block.
Proof.
  intro H. unfold ecdf_layout, axes_indices. cbn [mapM].
  destruct (H 0%nat ltac:(lia)) as [x0 Ex0]. destruct (H 3%nat ltac:(lia)) as [x1 Ex1].
  destruct (H 6%nat ltac:(lia)) as [x2 Ex2]. destruct (H 1%nat ltac:(lia)) as [y0 Ey0].
  destruct (H 4%nat ltac:(lia)) as [y1 Ey1]. destruct (H 7%nat ltac:(lia)) as [y2 Ey2].
  destruct (H 2%nat ltac:(lia)) as [z0 Ez0]. destruct (H 5%nat ltac:(lia)) as [z1 Ez1].
  destruct (H 8%nat ltac:(lia)) as [z2 Ez2].
  rewrite Ex0, Ex1, Ex2, Ey0, Ey1, Ey2, Ez0, Ez1, Ez2. cbn [bind concat map].
  eexists. split; [reflexivity|]. split; [reflexivity|].
  pose proof (fun f c (H : channel_features w n c = Ok f) =>
                proj2 (channel_features_length w n c f H)) as L.
  repeat constructor; rewrite length_map, !length_app;
    rewrite ?(L _ _ Ex0), ?(L _ _ Ex1), ?(L _ _ Ex2), ?(L _ _ Ey0), ?(L _ _ Ey1),
      ?(L _ _ Ey2), ?(L _ _ Ez0), ?(L _ _ Ez1), ?(L _ _ Ez2); simpl; lia.
Qed.

(** ** The 18-channel projection *)

Lemma compute_ecdf_features_18 (w : ndarray2) (n : Z) :
  shape1 w = 18%nat ->
  compute_ecdf_features w n =
  compute_ecdf_features (take_columns w acc_indices) n.
Proof.
  intro H. unfold compute_ecdf_features at 1 2.
  rewrite H. reflexivity.
Qed.

Lemma column_take_columns (w : ndarray2) (js : list nat) (j : nat) :
  (j < length js)%nat ->
  column (take_columns w js) j = column w (nth j js 0%nat).
Proof.
  intro Hj. unfold column, take_columns. cbn [rows].
  rewrite map_map. apply map_ext. intro r.
  rewrite (nth_indep _ 0%Qc (nth 0%nat r 0%Qc))
    by (rewrite length_map; exact Hj).
  apply (map_nth (fun j => nth j r 0%Qc) js 0%nat j).
Qed.

(** C3.  For a window with 18 channels the result (block or exception) is
    the one of [compute_ecdf_features] on the 9-channel window made of the
    even-indexed channels 0, 2, 4, ..., 16. *)
Theorem ecdf_features_18_is_projection (w : ndarray2) (n_points : Z) :
  shape1 w = 18%nat ->
  let projected := take_columns w [0; 2; 4; 6; 8; 10; 12; 14; 16]%nat in
  shape1 projected = 9%nat /\
  (forall j, (j < 9)%nat -> column projected j = column w (2 * j)) /\
  compute_ecdf_features w n_points = compute_ecdf_features projected n_points.
Proof.
  intros H projected. split; [reflexivity|]. split.
  - intros j Hj. unfold projected. rewrite column_take_columns by exact Hj.
    do 9 (destruct j as [|j]; [reflexivity|]). simpl in Hj. lia.
  - exact (compute_ecdf_features_18 w n_points H).
Qed.

Lemma compute_ecdf_features_segment (w : ndarray2) (n : Z) (M : farray2)
    (a i : nat) :
  shape1 w = 9%nat \/ shape1 w = 18%nat ->
  compute_ecdf_features w n = Ok M -> (a < 3)%nat -> (i < 3)%nat ->
  let w9 := if (shape1 w =? 18)%nat then take_columns w acc_indices else w in
  column w9 (3 * i + a) = column w (source_channel (shape1 w) (3 * i + a)) /\
  exists f, channel_features w9 n (3 * i + a) = Ok f /\
            segment n i (nth a (cells2 M) []) = map float32_of f.
Proof.
  intros HC E Ha Hi w9.
  assert (H9 : shape1 w9 = 9%nat /\ compute_ecdf_features w9 n = Ok M /\
               column w9 (3 * i + a)
               = column w (source_channel (shape1 w) (3 * i + a))).
  { unfold w9, source_channel. destruct HC as [HC|HC]; rewrite HC; cbn [Nat.eqb].
    - auto.
    - split; [reflexivity|]. split.
      + rewrite <- compute_ecdf_features_18; assumption.
      + rewrite column_take_columns by (simpl; lia).
        destruct a as [|[|[|a]]]; [| | |lia];
          (destruct i as [|[|[|i]]]; [| | |lia]); reflexivity. }
  destruct H9 as (H9 & E9 & HCol). split; [exact HCol|].
  destruct (Z_lt_le_dec n 0) as [Hneg|Hpos].
  - destruct (compute_ecdf_features_9_negative w9 n H9 Hneg) as [msg Em].
    congruence.
  - rewrite compute_ecdf_features_9 in E9 by assumption.
    exact (ecdf_layout_segment w9 n M a i E9 Ha Hi).
Qed.

Lemma compute_ecdf_features_returns (w : ndarray2) (n : Z) :
  shape1 w = 9%nat \/ shape1 w = 18%nat -> (1 <= shape0 w)%nat -> 0 <= n ->
  exists block,
    compute_ecdf_features w n = Ok {| dtype2 := Float32; cells2 := block |} /\
    length block = 3%nat /\
    Forall (fun row => length row = (3 * (Z.to_nat n + 1))%nat) block.
Proof.
  intros HC HT Hn.
  assert (R : forall w9, shape1 w9 = 9%nat -> (1 <= shape0 w9)%nat ->
              exists block,
                compute_ecdf_features w9 n
                = Ok {| dtype2 := Float32; cells2 := block |} /\
                length block = 3%nat /\
                Forall (fun row => length row = (3 * (Z.to_nat n + 1))%nat)
                       block).
  { intros w9 H9 HT9.
    destruct (np_linspace_ok 0%Qc (Qc_of_Z (Z.of_nat (shape0 w9) - 1)) n Hn)
      as [points EL].
    rewrite compute_ecdf_features_9 by assumption.
    apply ecdf_layout_ok. intros c _. eexists.
    apply (channel_features_ok w9 n c points HT9 EL). }
  destruct HC as [HC|HC].
  - apply R; assumption.
  - rewrite compute_ecdf_features_18 by exact HC.
    apply R; [reflexivity|].
    unfold shape0, take_columns in *. cbn [rows]. rewrite length_map. exact HT.
Qed.

Lemma batch_loop_spec (ws : list ndarray2) (done rest : list (list (list npfloat))) :
  length rest = length ws ->
  for_each (enumerate_from (length done) ws)
           (fun features '(i, window) =>
              block <- compute_ecdf_features window 25 ;;
              Ok (assign_block features i block))
           {| dtype3 := Float64; cells3 := done ++ rest |}
  = (blocks <- mapM (fun window => compute_ecdf_features window 25) ws ;;
     Ok {| dtype3 := Float64;
           cells3 := done ++ map (fun block => cells2 (astype2 Float64 block))
                                 blocks |}).
Proof.
  revert done rest. induction ws as [|w ws IH]; intros done rest L.
  - destruct rest; [reflexivity|discriminate].
  - destruct rest as [|z rest]; [discriminate|].
    cbn [enumerate_from for_each mapM].
    destruct (compute_ecdf_features w 25) as [block|e]; [|reflexivity].
    cbn [bind]. unfold assign_block at 2. cbn [dtype3 cells3].
    rewrite set_nth_app.
    replace (S (length done))
      with (length (done ++ [cells2 (astype2 Float64 block)]))
      by (rewrite length_app; simpl; lia).
    change (done ++ cells2 (astype2 Float64 block) :: rest)
      with (done ++ [cells2 (astype2 Float64 block)] ++ rest).
    rewrite app_assoc, IH by (simpl in L; lia).
    destruct (mapM _ ws) as [blocks|e]; [|reflexivity].
    cbn [bind map]. rewrite <- app_assoc. reflexivity.
Qed.

Lemma compute_batch_ecdf_features_layout (batch_data : list ndarray2) :
  compute_batch_ecdf_features batch_data = batch_layout batch_data.
Proof.
  unfold compute_batch_ecdf_features, batch_layout, enumerate, np_zeros3.
  apply (batch_loop_spec batch_data [] _). apply repeat_length.
Qed.

Lemma mapM_ok {A B : Type} (f : A -> result B) (xs : list A) :
  (forall x, In x xs -> exists y, f x = Ok y) ->
  exists ys, mapM f xs = Ok ys /\ length ys = length xs /\
             forall i x, nth_error xs i = Some x ->
                         exists y, f x = Ok y /\ nth_error ys i = Some y.
Proof.
  induction xs as [|x xs IH]; intro H.
  - exists []. repeat split. intros [|i] x E; discriminate.
  - destruct (H x (or_introl eq_refl)) as [y Ey].
    destruct IH as (ys & E & L & N); [intros; apply H; right; assumption|].
    exists (y :: ys). cbn [mapM]. rewrite Ey, E. repeat split.
    + simpl. congruence.
    + intros [|i] x' Ex; simpl in Ex.
      * injection Ex as <-. exists y. split; [exact Ey|reflexivity].
      * apply N. exact Ex.
Qed.

Lemma mapM_inv {A B : Type} (f : A -> result B) (xs : list A) (ys : list B) :
  mapM f xs = Ok ys ->
  length ys = length xs /\
  forall i x, nth_error xs i = Some x ->
              exists y, f x = Ok y /\ nth_error ys i = Some y.
Proof.
  revert ys. induction xs as [|x xs IH]; intros ys E; cbn [mapM] in E.
  - injection E as <-. split; [reflexivity|]. intros [|i] x E; discriminate.
  - destruct (f x) as [y|] eqn:Ey; [|discriminate].
    destruct (mapM f xs) as [ys'|]; [|discriminate].
    cbn [bind] in E. injection E as <-.
    destruct (IH ys' eq_refl) as [L N]. split; [simpl; congruence|].
    intros [|i] x' Ex; simpl in Ex.
    + injection Ex as <-. exists y. split; [exact Ey|reflexivity].
    + apply N. exact Ex.
Qed.

(** The first window that fails, after windows that all succeed, decides
    the outcome. *)
Lemma mapM_first_error {A B : Type} (f : A -> result B)
    (pre : list A) (x : A) (post : list A) (e : exn) :
  (forall v, In v pre -> exists y, f v = Ok y) ->
  f x = Err e ->
  mapM f (pre ++ x :: post) = Err e.
Proof.
  induction pre as [|v pre IH]; intros H E; cbn [mapM app].
  - rewrite E. reflexivity.
  - destruct (H v (or_introl eq_refl)) as [y ->].
    cbn [bind]. rewrite IH; [reflexivity| |exact E].
    intros; apply H; right; assumption.
Qed.

(** ** Outcomes of the extractor *)

Lemma compute_ecdf_features_rejects (w : ndarray2) (n : Z) :
  shape1 w <> 9%nat -> shape1 w <> 18%nat ->
  compute_ecdf_features w n = Err (UnsupportedChannelCount (shape1 w)).
Proof.
  intros H9 H18. unfold compute_ecdf_features.
  apply Nat.eqb_neq in H9, H18. rewrite H9, H18. reflexivity.
Qed.

Lemma ecdf_layout_channels_ok (w : ndarray2) (n : Z) (M : farray2) :
  ecdf_layout w n = Ok M ->
  forall c, (c < 9)%nat -> exists f, channel_features w n c = Ok f.
Proof.
  intros E c Hc.
  destruct (ecdf_layout_segment w n M (c mod 3) (c / 3) E) as (f & Ef & _).
  - apply Nat.mod_upper_bound. lia.
  - apply Nat.Div0.div_lt_upper_bound. lia.
  - exists f. rewrite <- Ef. f_equal.
    rewrite (Nat.div_mod_eq c 3) at 1. reflexivity.
Qed.

(** Whatever the window, a returned block is float32 with 3 rows of
    [3 * (n_points + 1)] cells. *)
Lemma compute_ecdf_features_shape (w : ndarray2) (n : Z) (M : farray2) :
  compute_ecdf_features w n = Ok M ->
  (shape1 w = 9%nat \/ shape1 w = 18%nat) /\ 0 <= n /\
  dtype2 M = Float32 /\ length (cells2 M) = 3%nat /\
  Forall (fun row => length row = (3 * (Z.to_nat n + 1))%nat) (cells2 M).
Proof.
  intro E.
  assert (HC : shape1 w = 9%nat \/ shape1 w = 18%nat).
  { destruct (Nat.eq_dec (shape1 w) 9) as [|N9]; [auto|].
    destruct (Nat.eq_dec (shape1 w) 18) as [|N18]; [auto|].
    rewrite compute_ecdf_features_rejects in E by assumption. discriminate. }
  split; [exact HC|].
  assert (R : forall w9, shape1 w9 = 9%nat -> compute_ecdf_features w9 n = Ok M ->
              0 <= n /\ dtype2 M = Float32 /\ length (cells2 M) = 3%nat /\
              Forall (fun row => length row = (3 * (Z.to_nat n + 1))%nat)
                     (cells2 M)).
  { intros w9 H9 E9.
    destruct (Z_lt_le_dec n 0) as [Hneg|Hpos].
    - destruct (compute_ecdf_features_9_negative w9 n H9 Hneg) as [msg Em].
      congruence.
    - split; [exact Hpos|].
      rewrite compute_ecdf_features_9 in E9 by assumption.
      destruct (ecdf_layout_ok w9 n (ecdf_layout_channels_ok w9 n M E9))
        as (block & EB & L & F).
      rewrite E9 in EB. injection EB as ->. auto. }
  destruct HC as [HC|HC].
  - exact (R w HC E).
  - rewrite compute_ecdf_features_18 in E by exact HC.
    exact (R (take_columns w acc_indices) eq_refl E).
Qed.

Lemma numpy_error_not_unsupported (e : exn) (channels : nat) :
  numpy_error e -> e <> UnsupportedChannelCount channels.
Proof.
  intros [->|[->|[num ->]]]; unfold UnsupportedChannelCount; discriminate.
Qed.

Lemma take_error (xs : list Qc) (ks : list Z) (e : exn) :
  take xs ks = Err e -> e = IndexError.
Proof.
  induction ks as [|k ks IH]; cbn [take]; [discriminate|].
  unfold getitem.
  destruct ((0 <=? k) && (k <? Z.of_nat (length xs))).
  - cbn [bind]. destruct (take xs ks); cbn [bind]; [discriminate|].
    intro E. injection E as <-. apply IH. reflexivity.
  - destruct ((- Z.of_nat (length xs) <=? k) && (k <? 0)).
    + cbn [bind]. destruct (take xs ks); cbn [bind]; [discriminate|].
      intro E. injection E as <-. apply IH. reflexivity.
    + cbn [bind]. congruence.
Qed.

Lemma channel_features_error (w : ndarray2) (n : Z) (c : nat) (e : exn) :
  channel_features w n c = Err e -> numpy_error e.
Proof.
  unfold channel_features.
  destruct (np_linspace _ _ n) as [pts|e'] eqn:EL; cbn [bind].
  - destruct (take _ _) as [vs|e'] eqn:ET; cbn [bind]; [discriminate|].
    intro E. injection E as <-. left. exact (take_error _ _ _ ET).
  - intro E. injection E as <-. unfold np_linspace in EL.
    destruct (n <? 0); [|discriminate]. injection EL as <-.
    right. right. exists n. reflexivity.
Qed.

Lemma ecdf_layout_error (w : ndarray2) (n : Z) (e : exn) :
  ecdf_layout w n = Err e -> numpy_error e.
Proof.
  unfold ecdf_layout, axes_indices. cbn [mapM].
  repeat match goal with
  | |- context [channel_features w n ?c] =>
      let E := fresh "E" in
      destruct (channel_features w n c) eqn:E; cbn [bind];
      [| intro H; injection H as <-; eapply channel_features_error; eassumption]
  end.
  discriminate.
Qed.

Lemma compute_ecdf_features_error (w : ndarray2) (n : Z) (e : exn) :
  shape1 w = 9%nat \/ shape1 w = 18%nat ->
  compute_ecdf_features w n = Err e -> numpy_error e.
Proof.
  assert (R : forall w9, shape1 w9 = 9%nat ->
              compute_ecdf_features w9 n = Err e -> numpy_error e).
  { intros w9 H9 E.
    destruct (Z_lt_le_dec n 0) as [Hneg|Hpos].
    - unfold compute_ecdf_features in E. rewrite H9 in E.
      cbn [Nat.eqb negb andb] in E.
      destruct (Z.eq_dec n (-1)) as [->|Hne].
      + injection E as <-. right. right. exists (-1). reflexivity.
      + unfold np_zeros2 in E.
        replace ((n + 1) * 3 <? 0) with true in E
          by (symmetry; apply Z.ltb_lt; lia).
        injection E as <-. right. left. reflexivity.
    - rewrite compute_ecdf_features_9 in E by assumption.
      exact (ecdf_layout_error w9 n e E). }
  intros [HC|HC] E.
  - exact (R w HC E).
  - rewrite compute_ecdf_features_18 in E by exact HC.
    exact (R (take_columns w acc_indices) eq_refl E).
Qed.

(** The cells of a returned block went through [astype(np.float32)]. *)
Lemma compute_ecdf_features_binary32 (w : ndarray2) (n : Z) (M : farray2) :
  compute_ecdf_features w n = Ok M ->
  Forall (Forall binary32_cell) (cells2 M).
Proof.
  intro E.
  destruct (compute_ecdf_features_shape w n M E) as (HC & Hn & _).
  assert (R : forall w9, shape1 w9 = 9%nat ->
              compute_ecdf_features w9 n = Ok M ->
              Forall (Forall binary32_cell) (cells2 M)).
  { intros w9 H9 E9. rewrite compute_ecdf_features_9 in E9 by assumption.
    unfold ecdf_layout in E9.
    destruct (mapM _ axes_indices) as [block|]; [|discriminate].
    cbn [bind] in E9. injection E9 as <-. cbn [cells2].
    apply Forall_forall. intros row Hrow.
    apply in_map_iff in Hrow as (r & <- & _).
    apply Forall_forall. intros x Hx.
    apply in_map_iff in Hx as (y & <- & _).
    apply float32_of_binary32. }
  destruct HC as [HC|HC].
  - exact (R w HC E).
  - rewrite compute_ecdf_features_18 in E by exact HC.
    exact (R (take_columns w acc_indices) eq_refl E).
Qed.

(** Storing float32 cells into a float64 array keeps them as they are. *)
Lemma upcast_cells (cells : list (list npfloat)) :
  Forall (Forall binary32_cell) cells ->
  map (map (cast Float32 Float64)) cells = cells.
Proof.
  induction 1 as [|row cells Hrow _ IH]; cbn [map]; [reflexivity|].
  rewrite IH. f_equal.
  induction Hrow as [|x row Hx _ IHr]; cbn [map]; [reflexivity|].
  rewrite IHr. cbn [cast]. rewrite (float64_of_binary32 x Hx). reflexivity.
Qed.

Lemma compute_batch_inv (batch : list ndarray2) (F : farray3) :
  compute_batch_ecdf_features batch = Ok F ->
  dtype3 F = Float64 /\ length (cells3 F) = length batch /\
  forall i w, nth_error batch i = Some w ->
    exists M, compute_ecdf_features w 25 = Ok M /\
              dtype2 M = Float32 /\
              nth_error (cells3 F) i
              = Some (map (map (cast Float32 Float64)) (cells2 M)).
Proof.
  rewrite compute_batch_ecdf_features_layout. unfold batch_layout.
  destruct (mapM _ batch) as [blocks|] eqn:EM; [|discriminate].
  cbn [bind]. intro E. injection E as <-.
  destruct (mapM_inv _ _ _ EM) as [L N]. cbn [dtype3 cells3].
  split; [reflexivity|]. split; [rewrite length_map; exact L|].
  intros i w Hw. destruct (N i w Hw) as (M & EC & EN).
  exists M. split; [exact EC|].
  destruct (compute_ecdf_features_shape w 25 M EC) as (_ & _ & HD & _).
  split; [exact HD|].
  rewrite nth_error_map, EN. cbn [option_map]. unfold astype2. cbn [cells2].
  rewrite HD. reflexivity.
Qed.

Lemma compute_batch_returns (batch : list ndarray2) :
  Forall (fun w => valid_channels w /\ (1 <= shape0 w)%nat) batch ->
  exists F, compute_batch_ecdf_features batch = Ok F.
Proof.
  intro H. rewrite compute_batch_ecdf_features_layout. unfold batch_layout.
  destruct (mapM_ok (fun w => compute_ecdf_features w 25) batch)
    as (blocks & -> & _).
  - intros w Hw. rewrite Forall_forall in H. destruct (H w Hw) as [HC HT].
    destruct (compute_ecdf_features_returns w 25 HC HT ltac:(lia))
      as (block & E & _).
    eauto.
  - eexists. reflexivity.
Qed.

Lemma compute_batch_first_error (pre : list ndarray2) (w : ndarray2)
    (post : list ndarray2) (e : exn) :
  (forall v, In v pre -> exists M, compute_ecdf_features v 25 = Ok M) ->
  compute_ecdf_features w 25 = Err e ->
  compute_batch_ecdf_features (pre ++ w :: post) = Err e.
Proof.
  intros Hpre E. rewrite compute_batch_ecdf_features_layout.
  unfold batch_layout.
  rewrite (mapM_first_error _ pre w post e Hpre E). reflexivity.
Qed.

(** C4 (as the code has it).  For every batch of N windows that all pass
    the channel check and have at least one time step,
    [compute_batch_ecdf_features] returns an array of shape (N, 3, 78)
    whose row [i] equals, value for value, the block that
    [compute_ecdf_features] returns for window [i] alone. *)
Theorem batch_rows_are_window_blocks (batch : list ndarray2) :
  Forall (fun w => valid_channels w /\ (1 <= shape0 w)%nat) batch ->
  exists F,
    compute_batch_ecdf_features batch = Ok F /\
    length (cells3 F) = length batch /\
    Forall (fun block => length block = 3%nat /\
                         Forall (fun row => length row = 78%nat) block)
           (cells3 F) /\
    forall i w, nth_error batch i = Some w ->
      exists M, compute_ecdf_features w 25 = Ok M /\
                nth_error (cells3 F) i = Some (cells2 M).
Proof.
  intro H. destruct (compute_batch_returns batch H) as [F EF].
  destruct (compute_batch_inv batch F EF) as (_ & L & N).
  assert (R : forall i w, nth_error batch i = Some w ->
              exists M, compute_ecdf_features w 25 = Ok M /\
                        nth_error (cells3 F) i = Some (cells2 M)).
  { intros i w Hw. destruct (N i w Hw) as (M & EC & _ & EN).
    exists M. split; [exact EC|].
    rewrite EN, (upcast_cells _ (compute_ecdf_features_binary32 w 25 M EC)).
    reflexivity. }
  exists F. split; [exact EF|]. split; [exact L|]. split; [|exact R].
  apply Forall_forall. intros block Hb.
  apply In_nth_error in Hb as [i Hi].
  assert (Hlt : (i < length batch)%nat).
  { rewrite <- L. apply nth_error_Some. congruence. }
  destruct (nth_error batch i) as [w|] eqn:Ew;
    [|apply nth_error_None in Ew; lia].
  destruct (R i w Ew) as (M & EC & EN).
  rewrite Hi in EN. injection EN as ->.
  destruct (compute_ecdf_features_shape w 25 M EC) as (_ & _ & _ & L3 & LR).
  split; [exact L3|exact LR].
Qed.

(** C4 fails as stated: a batch of one window with 9 channels and no time
    step passes the channel check, yet indexing the empty sorted channel
    raises IndexError and no array is returned. *)
Lemma batch_empty_window_raises :
  Forall valid_channels [ {| shape1 := 9; rows := [] |} ] /\
  compute_batch_ecdf_features [ {| shape1 := 9; rows := [] |} ]
  = Err IndexError.
Proof.
  split.
  - constructor; [left; reflexivity|constructor].
  - vm_compute. reflexivity.
Qed.

(** C5.  [compute_ecdf_features] raises the unsupported-channel-count
    ValueError exactly when the channel dimension is neither 9 nor 18, and
    then returns nothing; [compute_batch_ecdf_features] stops at the first
    window that raises, with that window's exception and no batch array. *)
Theorem unsupported_channel_count (w : ndarray2) (n_points : Z)
    (pre post : list ndarray2) :
  ((exists channels,
      compute_ecdf_features w n_points = Err (UnsupportedChannelCount channels))
   <-> shape1 w <> 9%nat /\ shape1 w <> 18%nat) /\
  (shape1 w <> 9%nat /\ shape1 w <> 18%nat ->
   compute_ecdf_features w n_points = Err (UnsupportedChannelCount (shape1 w))) /\
  ((forall v, In v pre -> exists M, compute_ecdf_features v 25 = Ok M) ->
   forall e, compute_ecdf_features w 25 = Err e ->
   compute_batch_ecdf_features (pre ++ w :: post) = Err e) /\
  ((forall v, In v pre -> exists M, compute_ecdf_features v 25 = Ok M) ->
   shape1 w <> 9%nat /\ shape1 w <> 18%nat ->
   compute_batch_ecdf_features (pre ++ w :: post)
   = Err (UnsupportedChannelCount (shape1 w))).
Proof.
  split; [split|split; [|split]].
  - intros [channels E].
    destruct (compute_ecdf_features w n_points) as [M|e] eqn:EC; [discriminate|].
    injection E as ->.
    assert (N : ~ valid_channels w).
    { intro HC.
      apply (numpy_error_not_unsupported _ channels
               (compute_ecdf_features_error w n_points _ HC EC)).
      reflexivity. }
    unfold valid_channels in N. split; intro; apply N; auto.
  - intros [H9 H18]. exists (shape1 w).
    apply compute_ecdf_features_rejects; assumption.
  - intros [H9 H18]. apply compute_ecdf_features_rejects; assumption.
  - intros Hpre e E. apply compute_batch_first_error; assumption.
  - intros Hpre [H9 H18]. apply compute_batch_first_error; [exact Hpre|].
    apply compute_ecdf_features_rejects; assumption.
Qed.

(** C10.  A block returned by [compute_ecdf_features] is float32: every
    cell is a binary32 value (or not finite).  The array returned by
    [compute_batch_ecdf_features] is float64, and its row [i] is the
    block of window [i] converted cell by cell to binary64, a conversion
    that keeps every value of the block. *)
Theorem batch_is_float64_upcast (batch : list ndarray2) :
  (forall w n_points M,
     compute_ecdf_features w n_points = Ok M ->
     dtype2 M = Float32 /\ Forall (Forall binary32_cell) (cells2 M)) /\
  (forall F, compute_batch_ecdf_features batch = Ok F ->
     dtype3 F = Float64 /\
     forall i w, nth_error batch i = Some w ->
       exists M, compute_ecdf_features w 25 = Ok M /\
                 dtype2 M = Float32 /\
                 nth_error (cells3 F) i
                 = Some (map (map float64_of) (cells2 M)) /\
                 map (map float64_of) (cells2 M) = cells2 M) /\
  (Forall (fun w => valid_channels w /\ (1 <= shape0 w)%nat) batch ->
   exists F, compute_batch_ecdf_features batch = Ok F).
Proof.
  split; [|split].
  - intros w n M E.
    destruct (compute_ecdf_features_shape w n M E) as (_ & _ & HD & _).
    split; [exact HD|]. exact (compute_ecdf_features_binary32 w n M E).
  - intros F EF. destruct (compute_batch_inv batch F EF) as (HD & _ & N).
    split; [exact HD|]. intros i w Hw.
    destruct (N i w Hw) as (M & EC & HM & EN).
    exists M. split; [exact EC|]. split; [exact HM|]. split; [exact EN|].
    exact (upcast_cells _ (compute_ecdf_features_binary32 w 25 M EC)).
  - apply compute_batch_returns.
Qed.

Lemma invalid_mode_tests (mode : string) :
  ~ valid_mode mode ->
  (mode =? "standardization")%string = false /\
  (mode =? "minmax")%string = false /\
  (mode =? "per_sample_std")%string = false /\
  (mode =? "per_sample_minmax")%string = false.
Proof.
  intro H. unfold valid_mode in H.
  repeat split; apply String.eqb_neq; intro E; apply H; auto.
Qed.

(** C6.  For a mode that is none of the four names, [fit] and [normalize]
    both raise the not-implemented NameError, [fit] already on a freshly
    constructed instance (the constructor itself checks nothing); for each
    of the four names [fit] returns and [normalize] raises no NameError. *)
Theorem normalizer_mode_validation (sqrt : Qc -> Qc) (self : Normalizer)
    (df : DataFrame) :
  (~ valid_mode (norm_type self) ->
   fit sqrt self df = Err (UnknownNormalizationMethod (norm_type self)) /\
   normalize sqrt self df = Err (UnknownNormalizationMethod (norm_type self)) /\
   fit sqrt (Normalizer_init (norm_type self)) df
   = Err (UnknownNormalizationMethod (norm_type self))) /\
  (valid_mode (norm_type self) ->
   (exists self', fit sqrt self df = Ok self' /\
                  norm_type self' = norm_type self) /\
   (forall msg, fit sqrt self df <> Err (NameError msg)) /\
   (forall msg, normalize sqrt self df <> Err (NameError msg))).
Proof.
  split.
  - intro H. destruct (invalid_mode_tests _ H) as (E1 & E2 & E3 & E4).
    unfold fit, normalize. cbn [norm_type Normalizer_init].
    rewrite E1, E2, E3, E4. auto.
  - intro H. unfold fit, normalize.
    destruct (norm_type self =? "standardization")%string eqn:E1.
    { split; [eexists; split; reflexivity|]. split; [discriminate|].
      intros msg. destruct (mean self), (std self); discriminate. }
    destruct (norm_type self =? "minmax")%string eqn:E2.
    { split; [eexists; split; reflexivity|]. split; [discriminate|].
      intros msg. destruct (min_val self), (max_val self); discriminate. }
    destruct (norm_type self =? "per_sample_std")%string eqn:E3.
    { split; [eexists; split; reflexivity|]. split; discriminate. }
    destruct (norm_type self =? "per_sample_minmax")%string eqn:E4.
    { split; [eexists; split; reflexivity|]. split; discriminate. }
    exfalso. apply String.eqb_neq in E1, E2, E3, E4.
    destruct H as [H|[H|[H|H]]]; contradiction.
Qed.

(** C7 does not hold for [per_sample_std]: on a sample whose readings are
    all equal the denominator is the bare group deviation, zero, and every
    cell of the result is the non-finite outcome of a division by zero;
    the sibling mode [per_sample_minmax] divides by [eps] on the same
    frame. *)
Theorem per_sample_std_divides_by_zero (sqrt : Qc -> Qc) :
  sqrt 0%Qc = 0%Qc ->
  per_sample_std_denominator sqrt constant_sample
  = [[Finite 0%Qc]; [Finite 0%Qc]] /\
  (exists self,
     fit sqrt (Normalizer_init "per_sample_std") constant_sample = Ok self /\
     normalize sqrt self constant_sample
     = Ok (with_cells constant_sample [[NonFinite]; [NonFinite]])) /\
  per_sample_minmax_denominator constant_sample
  = [[Finite float_eps]; [Finite float_eps]].
Proof.
  intro Hsqrt.
  assert (D : per_sample_std_denominator sqrt constant_sample
              = [[Finite 0%Qc]; [Finite 0%Qc]]).
  { unfold per_sample_std_denominator, group_transform, constant_sample.
    cbn [index cells ncols combine filter fst snd Z.eqb Pos.eqb map seq
         df_column nth].
    unfold stat_std. cbn [finite_values np_mean length Nat.leb map].
    match goal with
    | |- context [sqrt ?q] =>
        replace q with 0%Qc by (apply Qc_is_canon; reflexivity)
    end.
    rewrite Hsqrt. reflexivity. }
  split; [exact D|]. split.
  - eexists. split; [reflexivity|].
    unfold normalize. cbn [norm_type String.eqb Ascii.eqb Bool.eqb].
    rewrite D. reflexivity.
  - assert (E : add_eps (fsub (Finite (Qc_of_Z 5)) (Finite (Qc_of_Z 5)))
                = Finite float_eps).
    { unfold add_eps, fsub, fadd. apply f_equal. apply Qc_is_canon.
      reflexivity. }
    unfold per_sample_minmax_denominator, group_transform, constant_sample.
    cbn [index cells ncols combine filter fst snd Z.eqb Pos.eqb map seq
         df_column nth].
    unfold stat_max, stat_min.
    cbn [finite_values Qc_max_list Qc_min_list fold_left frame_op_frame
         zip_cells map].
    replace (if Qcleb (Qc_of_Z 5) (Qc_of_Z 5) then Qc_of_Z 5 else Qc_of_Z 5)
      with (Qc_of_Z 5) by (destruct (Qcleb _ _); reflexivity).
    rewrite E. reflexivity.
Qed.

Lemma Qc_of_nat_neq_0 (n : nat) : (1 <= n)%nat -> Qc_of_nat n <> 0%Qc.
Proof.
  intros H E. pose proof (Qc_of_nat_pos n H) as P.
  rewrite E in P. exact (Qclt_not_le _ _ P (Qcle_refl _)).
Qed.

Lemma fftfreq_bins_length (n : nat) :
  (1 <= n)%nat -> length (fftfreq_bins n) = n.
Proof.
  intro H. unfold fftfreq_bins.
  rewrite length_app, !length_map, !length_seq.
  pose proof (Nat.div_mod_eq (n - 1) 2). pose proof (Nat.div_mod_eq n 2).
  pose proof (Nat.mod_upper_bound (n - 1) 2 ltac:(lia)).
  pose proof (Nat.mod_upper_bound n 2 ltac:(lia)).
  lia.
Qed.

Lemma np_fftfreq_ok (n : nat) (fs : Qc) :
  (1 <= n)%nat -> fs <> 0%Qc ->
  np_fftfreq n (1 / fs)%Qc =
    Ok (map (fun k => (Qc_of_Z k * (fs / Qc_of_nat n))%Qc) (fftfreq_bins n)).
Proof.
  intros Hn Hfs. unfold np_fftfreq.
  pose proof (Qc_of_nat_neq_0 n Hn) as Hn0.
  assert (Hnd : (Qc_of_nat n * (1 / fs))%Qc <> 0%Qc).
  { intro E. apply Hn0.
    replace (Qc_of_nat n) with (Qc_of_nat n * (1 / fs) * fs)%Qc
      by (field; exact Hfs).
    rewrite E. ring. }
  apply Qceqb_neq in Hnd. rewrite Hnd. f_equal.
  apply map_ext. intro k. f_equal. field. split; assumption.
Qed.

Lemma map_nth_seq_combine {A B C : Type} (g : A -> B -> C)
    (xs : list A) (ys : list B) (dx : A) (dy : B) :
  length xs = length ys ->
  map (fun i => g (nth i xs dx) (nth i ys dy)) (seq 0 (length xs))
  = map (fun p => g (fst p) (snd p)) (combine xs ys).
Proof.
  revert ys. induction xs as [|x xs IH]; intros [|y ys] L;
    try discriminate; [reflexivity|].
  cbn [length seq map combine nth fst snd]. f_equal.
  rewrite <- seq_shift, map_map. apply IH. simpl in L. lia.
Qed.

Section SpectrumFacts.
Variable complex : Type.
Variable complex_of_float : Qc -> complex.
Variable real : complex -> Qc.
Variable fft_values : list Qc -> list complex.
Variable ifft_values : list complex -> list complex.

Let zero : complex := complex_of_float 0%Qc.

Lemma dc_mask_spec (freq1 freq : Qc) :
  dc_mask freq1 freq = true <-> (Qcabs freq <= freq1)%Qc.
Proof. apply Qcleb_le. Qed.

Lemma body_mask_spec (freq1 freq2 freq : Qc) :
  body_mask freq1 freq2 freq = true <->
  (freq1 < Qcabs freq)%Qc /\ (Qcabs freq <= freq2)%Qc.
Proof.
  unfold body_mask. rewrite andb_true_iff, Qcltb_lt, Qcleb_le. reflexivity.
Qed.

Lemma noise_mask_spec (freq2 freq : Qc) :
  noise_mask freq2 freq = true <-> (freq2 < Qcabs freq)%Qc.
Proof. apply Qcltb_lt. Qed.

(** The tests of the code select the bins of the three masks. *)
Lemma select_bin_masks (freqs : list Qc) (f_signal : list complex)
    (freq1 freq2 : Qc) (dc body noise : list complex) (i : nat) (v : complex) :
  nth_error f_signal i = Some v ->
  select_bin complex complex_of_float freqs f_signal freq1 freq2
             (dc, body, noise) i
  = Ok (dc ++ [if dc_mask freq1 (nth i freqs 0%Qc) then v else zero],
        body ++ [if body_mask freq1 freq2 (nth i freqs 0%Qc) then v else zero],
        noise ++ [if noise_mask freq2 (nth i freqs 0%Qc) then v else zero]).
Proof.
  intro Hv. unfold select_bin, getitem_complex. rewrite Hv. cbn [bind].
  unfold dc_mask, body_mask, noise_mask, Qcgtb, Qcltb, Qcleb.
  set (a := Qcabs (nth i freqs 0%Qc)).
  destruct (Qle_bool a freq1), (Qle_bool a freq2); reflexivity.
Qed.

Lemma select_loop (freqs : list Qc) (f_signal : list complex)
    (freq1 freq2 : Qc) (indices : list nat) :
  Forall (fun i => (i < length f_signal)%nat) indices ->
  forall dc body noise,
  for_each indices
           (select_bin complex complex_of_float freqs f_signal freq1 freq2)
           (dc, body, noise)
  = Ok (dc ++ map (fun i => if dc_mask freq1 (nth i freqs 0%Qc)
                            then nth i f_signal zero else zero) indices,
        body ++ map (fun i => if body_mask freq1 freq2 (nth i freqs 0%Qc)
                              then nth i f_signal zero else zero) indices,
        noise ++ map (fun i => if noise_mask freq2 (nth i freqs 0%Qc)
                               then nth i f_signal zero else zero) indices).
Proof.
  induction 1 as [|i indices Hi _ IH]; intros dc body noise.
  - cbn [for_each map]. rewrite !app_nil_r. reflexivity.
  - cbn [for_each map].
    destruct (nth_error f_signal i) as [v|] eqn:Ev;
      [|apply nth_error_None in Ev; lia].
    rewrite (select_bin_masks _ _ _ _ _ _ _ _ _ Ev). cbn [bind].
    rewrite IH, (nth_error_nth _ _ zero Ev), <- !app_assoc. reflexivity.
Qed.

Lemma masked_spectra_ok (t_signal : list Qc) (freq1 freq2 fs : Qc) :
  length (fft_values t_signal) = length t_signal ->
  t_signal <> [] -> fs <> 0%Qc ->
  exists freqs,
    np_fftfreq (length t_signal) (1 / fs)%Qc = Ok freqs /\
    length freqs = length t_signal /\
    freqs = map (fun k => (Qc_of_Z k * (fs / Qc_of_nat (length t_signal)))%Qc)
                (fftfreq_bins (length t_signal)) /\
    masked_spectra complex complex_of_float fft_values t_signal freq1 freq2 fs
    = Ok (freqs,
          (apply_mask complex complex_of_float (dc_mask freq1) freqs
                      (fft_values t_signal),
           apply_mask complex complex_of_float (body_mask freq1 freq2) freqs
                      (fft_values t_signal),
           apply_mask complex complex_of_float (noise_mask freq2) freqs
                      (fft_values t_signal))).
Proof.
  intros HL Hne Hfs.
  assert (HT : (1 <= length t_signal)%nat).
  { destruct t_signal; [contradiction|simpl; lia]. }
  pose proof (np_fftfreq_ok (length t_signal) fs HT Hfs) as EF.
  set (freqs := map (fun k => (Qc_of_Z k * (fs / Qc_of_nat (length t_signal)))%Qc)
                    (fftfreq_bins (length t_signal))) in *.
  assert (LF : length freqs = length t_signal).
  { unfold freqs. rewrite length_map. apply fftfreq_bins_length, HT. }
  exists freqs. split; [exact EF|]. split; [exact LF|]. split; [reflexivity|].
  unfold masked_spectra, fft, float_reciprocal.
  destruct t_signal as [|x t_signal]; [contradiction|].
  set (signal := x :: t_signal) in *.
  apply Qceqb_neq in Hfs. rewrite Hfs. cbn [bind]. rewrite EF. cbn [bind].
  rewrite select_loop
    by (apply Forall_forall; intros i Hi; apply in_seq in Hi; lia).
  cbn [bind app]. unfold apply_mask.
  assert (LS : length freqs = length (fft_values signal)) by congruence.
  pose proof (fun mask : Qc -> bool =>
                map_nth_seq_combine
                  (fun (f : Qc) (v : complex) => if mask f then v else zero)
                  freqs (fft_values signal) 0%Qc zero LS) as R.
  cbn [fst snd] in R. unfold zero in *.
  rewrite <- (R (dc_mask freq1)), <- (R (body_mask freq1 freq2)),
    <- (R (noise_mask freq2)).
  reflexivity.
Qed.
End SpectrumFacts.

(** C2.  With band edges [freq1 <= freq2], every bin frequency lies in
    exactly one of the three masks: DC keeps [|f| <= freq1], body keeps
    [freq1 < |f| <= freq2], noise keeps [|f| > freq2]; and the three
    spectra that [components_selection_one_signal] builds are the spectrum
    of the signal under these masks (a bin outside a mask is set to 0). *)
Theorem band_masks_partition (complex : Type)
    (complex_of_float : Qc -> complex) (fft_values : list Qc -> list complex)
    (t_signal : list Qc) (freq1 freq2 fs : Qc) :
  (freq1 <= freq2)%Qc ->
  (forall freq,
     (dc_mask freq1 freq = true <-> (Qcabs freq <= freq1)%Qc) /\
     (body_mask freq1 freq2 freq = true <->
      (freq1 < Qcabs freq)%Qc /\ (Qcabs freq <= freq2)%Qc) /\
     (noise_mask freq2 freq = true <-> (freq2 < Qcabs freq)%Qc) /\
     exactly_one (dc_mask freq1 freq) (body_mask freq1 freq2 freq)
                 (noise_mask freq2 freq)) /\
  (length (fft_values t_signal) = length t_signal ->
   t_signal <> [] -> fs <> 0%Qc ->
   exists freqs,
     length freqs = length t_signal /\
     masked_spectra complex complex_of_float fft_values t_signal freq1 freq2 fs
     = Ok (freqs,
           (apply_mask complex complex_of_float (dc_mask freq1) freqs
                       (fft_values t_signal),
            apply_mask complex complex_of_float (body_mask freq1 freq2) freqs
                       (fft_values t_signal),
            apply_mask complex complex_of_float (noise_mask freq2) freqs
                       (fft_values t_signal)))).
Proof.
  intro H12. split.
  - intro freq.
    split; [apply dc_mask_spec|]. split; [apply body_mask_spec|].
    split; [apply noise_mask_spec|].
    unfold exactly_one, dc_mask, body_mask, noise_mask, Qcltb.
    destruct (Qcleb (Qcabs freq) freq1) eqn:E1,
             (Qcleb (Qcabs freq) freq2) eqn:E2;
      fold (Qcleb (Qcabs freq) freq1); fold (Qcleb (Qcabs freq) freq2);
      rewrite ?E1, ?E2; cbn [negb andb]; auto.
    exfalso. apply Qcleb_le in E1. apply Qcleb_gt in E2.
    exact (Qclt_not_le _ _ E2 (Qcle_trans _ _ _ E1 H12)).
  - intros HL Hne Hfs.
    destruct (masked_spectra_ok complex complex_of_float fft_values
                t_signal freq1 freq2 fs HL Hne Hfs)
      as (freqs & _ & LF & _ & EM).
    exists freqs. split; assumption.
Qed.

Lemma ecdf_features_18_is_projection_witness :
  compute_ecdf_features example_window_18 25
  = compute_ecdf_features
      (take_columns example_window_18 [0; 2; 4; 6; 8; 10; 12; 14; 16]%nat) 25.
Proof.
  apply (ecdf_features_18_is_projection example_window_18 25). reflexivity.
Defined.

Lemma batch_rows_are_window_blocks_witness :
  exists F,
    compute_batch_ecdf_features [example_window; example_window_18] = Ok F /\
    length (cells3 F) = 2%nat.
Proof.
  destruct (batch_rows_are_window_blocks [example_window; example_window_18])
    as (F & E & L & _).
  - repeat constructor; vm_compute; lia.
  - exists F. split; assumption.
Defined.

Lemma unsupported_channel_count_witness :
  compute_batch_ecdf_features [example_window; example_window_7]
  = Err (UnsupportedChannelCount 7).
Proof.
  apply (unsupported_channel_count example_window_7 25 [example_window] []).
  - intros v [<-|[]].
    destruct (compute_ecdf_features_returns example_window 25)
      as (block & E & _).
    + left. reflexivity.
    + vm_compute. lia.
    + lia.
    + eexists. exact E.
  - split; discriminate.
Defined.

Lemma batch_is_float64_upcast_witness :
  exists F, compute_batch_ecdf_features [example_window] = Ok F.
Proof.
  apply (batch_is_float64_upcast [example_window]).
  repeat constructor; vm_compute; lia.
Defined.

Lemma normalizer_mode_validation_witness :
  fit example_sqrt (Normalizer_init "zscore") constant_sample
  = Err (UnknownNormalizationMethod "zscore").
Proof.
  apply (normalizer_mode_validation example_sqrt (Normalizer_init "zscore")
           constant_sample).
  intros [H|[H|[H|H]]]; discriminate H.
Defined.

Lemma per_sample_std_divides_by_zero_witness :
  per_sample_std_denominator example_sqrt constant_sample
  = [[Finite 0%Qc]; [Finite 0%Qc]].
Proof.
  apply (per_sample_std_divides_by_zero example_sqrt).
  apply Qc_is_canon. reflexivity.
Defined.

Lemma band_masks_partition_witness :
  exactly_one (dc_mask (Q2Qc (1 # 1000)) (Qc_of_Z 3))
              (body_mask (Q2Qc (1 # 1000)) (Qc_of_Z 25) (Qc_of_Z 3))
              (noise_mask (Qc_of_Z 25) (Qc_of_Z 3)).
Proof.
  apply (band_masks_partition (Qc * Qc) (fun q => (q, 0%Qc)) example_spectrum
           (row_of [1; 2; 3; 4]) (Q2Qc (1 # 1000)) (Qc_of_Z 25) (Qc_of_Z 50)).
  apply Qcleb_le. reflexivity.
Defined.

(** * Further properties of the code *)

(** ** More on the extractor *)

Lemma take_columns_shape0 (w : ndarray2) (js : list nat) :
  shape0 (take_columns w js) = shape0 w.
Proof. unfold shape0, take_columns. cbn [rows]. apply length_map. Qed.

(** Every segment of a returned block, for 9 or 18 channels. *)
Lemma segment_features (w : ndarray2) (n : Z) (M : farray2) (a i : nat) :
  valid_channels w -> (1 <= shape0 w)%nat ->
  compute_ecdf_features w n = Ok M -> (a < 3)%nat -> (i < 3)%nat ->
  exists points,
    np_linspace 0%Qc (Qc_of_Z (Z.of_nat (shape0 w) - 1)) n = Ok points /\
    segment n i (nth a (cells2 M) []) =
    map float32_of
        (sampled_features (column w (source_channel (shape1 w) (3 * i + a)))
                          (np_around_int points)).
Proof.
  intros HC HT E Ha Hi.
  destruct (compute_ecdf_features_shape w n M E) as (_ & Hn & _).
  destruct (np_linspace_ok 0%Qc (Qc_of_Z (Z.of_nat (shape0 w) - 1)) n Hn)
    as [points EL].
  exists points. split; [exact EL|].
  destruct (compute_ecdf_features_segment w n M a i HC E Ha Hi)
    as (Col & f & Ef & Sf).
  rewrite Sf, <- Col. f_equal.
  set (w9 := if (shape1 w =? 18)%nat then take_columns w acc_indices else w) in *.
  assert (HT9 : shape0 w9 = shape0 w).
  { unfold w9. destruct (shape1 w =? 18)%nat;
      [apply take_columns_shape0|reflexivity]. }
  rewrite (channel_features_ok w9 n (3 * i + a) points) in Ef.
  - injection Ef as <-. reflexivity.
  - rewrite HT9. exact HT.
  - rewrite HT9. exact EL.
Qed.

(** The samples of a segment, without its last cell: the sorted channel
    read at the rounded points of the grid. *)
Lemma segment_samples (w : ndarray2) (n : Z) (M : farray2) (a i : nat) :
  valid_channels w -> (1 <= shape0 w)%nat ->
  compute_ecdf_features w n = Ok M -> (a < 3)%nat -> (i < 3)%nat ->
  exists points,
    np_linspace 0%Qc (Qc_of_Z (Z.of_nat (shape0 w) - 1)) n = Ok points /\
    firstn (Z.to_nat n) (segment n i (nth a (cells2 M) [])) =
    map (fun k => float32_of
                    (Finite (nth (Z.to_nat k)
                                 (np_sort (column w (source_channel (shape1 w)
                                                                    (3 * i + a))))
                                 0%Qc)))
        (np_around_int points).
Proof.
  intros HC HT E Ha Hi.
  destruct (segment_features w n M a i HC HT E Ha Hi) as (points & EL & ->).
  exists points. split; [exact EL|].
  destruct (np_linspace_length _ _ _ _ EL) as [_ LP].
  unfold sampled_features. rewrite map_app, map_map.
  set (samples := map _ (np_around_int points)).
  replace (Z.to_nat n) with (length samples)
    by (unfold samples, np_around_int; rewrite !length_map; exact LP).
  apply firstn_length_app.
Qed.

Lemma insert_sorted_repeat (v : Qc) (k : nat) :
  insert_sorted v (repeat v k) = v :: repeat v k.
Proof.
  destruct k as [|k]; simpl; [reflexivity|].
  replace (Qcleb v v) with true; [reflexivity|].
  symmetry. apply Qcleb_le, Qcle_refl.
Qed.

Lemma np_sort_repeat (v : Qc) (k : nat) : np_sort (repeat v k) = repeat v k.
Proof.
  induction k as [|k IH]; [reflexivity|].
  change (np_sort (repeat v (S k))) with (insert_sorted v (np_sort (repeat v k))).
  rewrite IH. apply insert_sorted_repeat.
Qed.

(** X1.  A constant channel: every sample of its segment is the constant
    (cast to float32). *)
Theorem ecdf_constant_channel (w : ndarray2) (n_points : Z) (M : farray2)
    (a i : nat) (v : Qc) :
  valid_channels w -> (1 <= shape0 w)%nat ->
  compute_ecdf_features w n_points = Ok M -> (a < 3)%nat -> (i < 3)%nat ->
  (forall x, In x (column w (source_channel (shape1 w) (3 * i + a))) -> x = v) ->
  firstn (Z.to_nat n_points) (segment n_points i (nth a (cells2 M) []))
  = repeat (float32_of (Finite v)) (Z.to_nat n_points).
Proof.
  intros HC HT E Ha Hi Hv.
  destruct (segment_samples w n_points M a i HC HT E Ha Hi) as (points & EL & ->).
  set (col := column w (source_channel (shape1 w) (3 * i + a))) in *.
  assert (Hcol : col = repeat v (shape0 w)).
  { replace (shape0 w) with (length col)
      by (unfold col, column, shape0; apply length_map).
    apply Forall_eq_repeat, Forall_forall. intros x Hx. symmetry. auto. }
  pose proof (np_linspace_bounds (shape0 w) n_points points HT EL) as HB.
  destruct (np_linspace_length _ _ _ _ EL) as [_ HL].
  rewrite Hcol, np_sort_repeat.
  replace (Z.to_nat n_points) with (length (np_around_int points))
    by (unfold np_around_int; rewrite length_map, HL; reflexivity).
  induction HB as [|k ks Hk _ IH]; cbn [map length repeat]; [reflexivity|].
  rewrite IH. f_equal. f_equal. f_equal.
  rewrite (nth_indep _ 0%Qc v) by (rewrite repeat_length; lia).
  apply nth_repeat.
Qed.

Lemma sorted_nth_le (l : list Qc) (i j : nat) :
  Sorted Qcle l -> (i <= j)%nat -> (j < length l)%nat ->
  (nth i l 0 <= nth j l 0)%Qc.
Proof.
  intro S. apply Sorted_StronglySorted in S;
    [|intros x y z; apply Qcle_trans].
  revert i j. induction S as [|x l S IH F]; intros i j Hij Hj; simpl in Hj.
  - lia.
  - destruct i as [|i], j as [|j]; cbn [nth]; try lia.
    + apply Qcle_refl.
    + rewrite Forall_forall in F. apply F, nth_In. lia.
    + apply IH; lia.
Qed.

(** The grid starts at index 0 and ends at index [T - 1]. *)
Lemma np_linspace_ends (T : nat) (n : Z) (points : list Qc) :
  2 <= n ->
  np_linspace 0%Qc (Qc_of_Z (Z.of_nat T - 1)) n = Ok points ->
  nth 0 (np_around_int points) 0 = 0 /\
  nth (Z.to_nat n - 1) (np_around_int points) 0 = Z.of_nat T - 1.
Proof.
  intros Hn. unfold np_linspace.
  destruct (n <? 0); [discriminate|]. intro E. injection E as <-.
  unfold np_around_int. rewrite map_map.
  assert (E1 : (1 <? Z.to_nat n)%nat = true) by (apply Nat.ltb_lt; lia).
  assert (E2 : (0 <? Z.to_nat n - 1)%nat = true) by (apply Nat.ltb_lt; lia).
  rewrite E1, E2.
  set (g := fun i : nat => rint _).
  rewrite !(nth_indep _ 0 (g 0%nat)) by (rewrite length_map, length_seq; lia).
  rewrite !map_nth, !seq_nth by lia. unfold g. cbn [Nat.add andb]. split.
  - replace (0 =? Z.to_nat n - 1)%nat with false
      by (symmetry; apply Nat.eqb_neq; lia).
    change (Qc_of_nat 0) with (Qc_of_Z 0).
    match goal with
    | |- rint (this ?q) = 0 => replace q with (Qc_of_Z 0)
    end.
    + apply rint_Qc_of_Z.
    + change (Qc_of_Z 0) with 0%Qc. ring.
  - rewrite Nat.eqb_refl. apply rint_Qc_of_Z.
Qed.

(** X2.  With at least two points, the first sample of a segment is the
    least reading of its channel and the last sample is the greatest. *)
Theorem ecdf_extreme_samples (w : ndarray2) (n_points : Z) (M : farray2)
    (a i : nat) :
  valid_channels w -> (1 <= shape0 w)%nat -> 2 <= n_points ->
  compute_ecdf_features w n_points = Ok M -> (a < 3)%nat -> (i < 3)%nat ->
  exists lo hi,
    In lo (column w (source_channel (shape1 w) (3 * i + a))) /\
    In hi (column w (source_channel (shape1 w) (3 * i + a))) /\
    (forall x, In x (column w (source_channel (shape1 w) (3 * i + a))) ->
               (lo <= x)%Qc /\ (x <= hi)%Qc) /\
    nth 0 (segment n_points i (nth a (cells2 M) [])) NonFinite
    = float32_of (Finite lo) /\
    nth (Z.to_nat n_points - 1) (segment n_points i (nth a (cells2 M) []))
        NonFinite
    = float32_of (Finite hi).
Proof.
  intros HC HT Hn E Ha Hi.
  destruct (segment_features w n_points M a i HC HT E Ha Hi) as (points & EL & ->).
  set (col := column w (source_channel (shape1 w) (3 * i + a))).
  assert (HL : length (np_sort col) = shape0 w).
  { rewrite np_sort_length. unfold col, column, shape0. apply length_map. }
  destruct (np_linspace_ends (shape0 w) n_points points Hn EL) as [I0 I1].
  destruct (np_linspace_length _ _ _ _ EL) as [_ LP].
  assert (LI : length (np_around_int points) = Z.to_nat n_points)
    by (unfold np_around_int; rewrite length_map; exact LP).
  exists (nth 0 (np_sort col) 0%Qc), (nth (shape0 w - 1) (np_sort col) 0%Qc).
  split; [|split; [|split; [|split]]].
  - apply (Permutation_in _ (Permutation_sym (np_sort_perm col))).
    apply nth_In. lia.
  - apply (Permutation_in _ (Permutation_sym (np_sort_perm col))).
    apply nth_In. lia.
  - intros x Hx. apply (Permutation_in _ (np_sort_perm col)) in Hx.
    destruct (In_nth _ _ 0%Qc Hx) as (j & Hj & <-).
    split; apply sorted_nth_le; try apply np_sort_sorted; lia.
  - unfold sampled_features.
    rewrite (nth_indep _ NonFinite (float32_of NonFinite))
      by (rewrite length_map, length_app, length_map, LI; simpl; lia).
    rewrite map_nth, app_nth1 by (rewrite length_map, LI; lia).
    rewrite (nth_indep _ NonFinite
               (Finite (nth (Z.to_nat 0) (np_sort col) 0%Qc)))
      by (rewrite length_map, LI; lia).
    rewrite (map_nth (fun k => Finite (nth (Z.to_nat k) (np_sort col) 0%Qc))).
    rewrite I0. reflexivity.
  - unfold sampled_features.
    rewrite (nth_indep _ NonFinite (float32_of NonFinite))
      by (rewrite length_map, length_app, length_map, LI; simpl; lia).
    rewrite map_nth, app_nth1 by (rewrite length_map, LI; lia).
    rewrite (nth_indep _ NonFinite
               (Finite (nth (Z.to_nat 0) (np_sort col) 0%Qc)))
      by (rewrite length_map, LI; lia).
    rewrite (map_nth (fun k => Finite (nth (Z.to_nat k) (np_sort col) 0%Qc))).
    rewrite I1. do 2 f_equal. f_equal. lia.
Qed.

Lemma rint_monotone (q q' : Q) : (q <= q')%Q -> rint q <= rint q'.
Proof.
  intro H. pose proof (Qfloor_resp_le _ _ H) as F.
  destruct (Z.eq_dec (Qfloor q) (Qfloor q')) as [E|N].
  - unfold rint. rewrite <- E.
    destruct (q - inject_Z (Qfloor q) ?= 1 # 2)%Q eqn:C;
      [apply Qeq_alt in C | apply Qlt_alt in C | apply Qgt_alt in C];
      (destruct (q' - inject_Z (Qfloor q) ?= 1 # 2)%Q eqn:C';
       [apply Qeq_alt in C' | apply Qlt_alt in C' | apply Qgt_alt in C']);
      try lia; try (exfalso; lra); destruct (Z.even (Qfloor q)); lia.
  - destruct (rint_floor_or_succ q) as [R|R],
             (rint_floor_or_succ q') as [R'|R']; lia.
Qed.

Lemma Sorted_map_seq (g : nat -> Z) (len a : nat) :
  (forall i j, (a <= i)%nat -> (i <= j)%nat -> (j < a + len)%nat -> g i <= g j) ->
  Sorted Z.le (map g (seq a len)).
Proof.
  revert a. induction len as [|len IH]; intros a H; cbn [seq map].
  - constructor.
  - constructor.
    + apply IH. intros i j Hi Hij Hj. apply H; lia.
    + destruct len as [|len]; cbn [seq map]; constructor. apply H; lia.
Qed.

(** The rounded points of the grid are non-decreasing. *)
Lemma np_linspace_sorted (T : nat) (num : Z) (points : list Qc) :
  (1 <= T)%nat ->
  np_linspace 0%Qc (Qc_of_Z (Z.of_nat T - 1)) num = Ok points ->
  Sorted Z.le (np_around_int points).
Proof.
  intros HT. unfold np_linspace.
  destruct (num <? 0); [discriminate|]. intro E. injection E as <-.
  unfold np_around_int. rewrite map_map. apply Sorted_map_seq.
  intros i j _ Hij Hj. cbn [Nat.add] in Hj. apply rint_monotone.
  set (stop := Qc_of_Z (Z.of_nat T - 1)).
  set (n := Z.to_nat num) in *.
  assert (Hstop : (0 <= stop)%Qc).
  { unfold stop. change 0%Qc with (Qc_of_Z 0). apply Qc_of_Z_le. lia. }
  replace (stop - 0)%Qc with stop by ring.
  destruct (Nat.eq_dec i j) as [->|Nij]; [apply Qle_refl|].
  assert (E1 : (1 <? n)%nat = true) by (apply Nat.ltb_lt; lia).
  assert (E2 : (0 <? n - 1)%nat = true) by (apply Nat.ltb_lt; lia).
  assert (Ei : (i =? n - 1)%nat = false) by (apply Nat.eqb_neq; lia).
  rewrite E1, E2, Ei. cbn [andb].
  change (?x <= ?y)%Q with (Qcle x y).
  destruct (j =? n - 1)%nat eqn:Ej.
  - apply (Qc_scale_bounds (Qc_of_nat i) (Qc_of_nat (n - 1)) stop).
    + apply Qc_of_nat_nonneg.
    + apply Qc_of_nat_le. lia.
    + apply Qc_of_nat_pos. lia.
    + exact Hstop.
  - rewrite !Qcplus_0_r. apply Qcmult_le_compat_r.
    + apply Qc_of_nat_le. lia.
    + destruct (Qc_scale_bounds (Qc_of_nat (n - 1)) (Qc_of_nat (n - 1)) stop)
        as [B0 _]; try assumption.
      * apply Qc_of_nat_nonneg.
      * apply Qcle_refl.
      * apply Qc_of_nat_pos. lia.
      * rewrite Qcplus_0_r in B0.
        apply Qcnot_lt_le. intro Hneg.
        apply (Qcle_not_lt _ _ B0).
        replace 0%Qc with (Qc_of_nat (n - 1) * 0)%Qc by ring.
        rewrite !(Qcmult_comm (Qc_of_nat (n - 1))).
        apply Qcmult_lt_compat_r; [apply Qc_of_nat_pos; lia|exact Hneg].
Qed.

(** X21.  The samples of a segment are order statistics of its channel:
    they are the float32 casts of the readings found, in an ascending
    rearrangement of the channel, at [n_points] non-decreasing positions
    between [0] and [T - 1]. *)
Theorem ecdf_samples_are_order_statistics (w : ndarray2) (n_points : Z)
    (M : farray2) (a i : nat) :
  valid_channels w -> (1 <= shape0 w)%nat ->
  compute_ecdf_features w n_points = Ok M -> (a < 3)%nat -> (i < 3)%nat ->
  exists (sorted : list Qc) (positions : list Z),
    Permutation (column w (source_channel (shape1 w) (3 * i + a))) sorted /\
    Sorted Qcle sorted /\
    length positions = Z.to_nat n_points /\
    Forall (fun k => 0 <= k < Z.of_nat (shape0 w)) positions /\
    Sorted Z.le positions /\
    firstn (Z.to_nat n_points) (segment n_points i (nth a (cells2 M) []))
    = map (fun k => float32_of (Finite (nth (Z.to_nat k) sorted 0%Qc)))
          positions.
Proof.
  intros HC HT E Ha Hi.
  destruct (segment_samples w n_points M a i HC HT E Ha Hi) as (points & EL & ES).
  destruct (np_linspace_length _ _ _ _ EL) as [_ LP].
  exists (np_sort (column w (source_channel (shape1 w) (3 * i + a)))),
         (np_around_int points).
  split; [apply np_sort_perm|]. split; [apply np_sort_sorted|].
  split; [unfold np_around_int; rewrite length_map; exact LP|].
  split; [exact (np_linspace_bounds (shape0 w) n_points points HT EL)|].
  split; [exact (np_linspace_sorted (shape0 w) n_points points HT EL)|].
  exact ES.
Qed.

Lemma channel_features_empty (w : ndarray2) (n : Z) (c : nat) :
  shape0 w = 0%nat -> 1 <= n ->
  channel_features w n c = Err IndexError.
Proof.
  intros HT Hn. unfold channel_features.
  assert (Hcol : column w c = []).
  { unfold column. unfold shape0 in HT.
    destruct (rows w); [reflexivity|discriminate]. }
  rewrite Hcol. cbn [np_sort fold_right length].
  destruct (np_linspace_ok 0%Qc (Qc_of_Z (Z.of_nat 0 - 1)) n ltac:(lia))
    as [points EL].
  rewrite EL. cbn [bind].
  destruct (np_linspace_length _ _ _ _ EL) as [_ LP].
  destruct points as [|p points]; [simpl in LP; lia|].
  unfold np_around_int. cbn [map]. rewrite take_nil_index. reflexivity.
Qed.

(** X3.  A window without time steps, of 9 or 18 channels, makes the
    extractor raise IndexError as soon as one point is asked for. *)
Theorem ecdf_empty_window_raises (w : ndarray2) (n_points : Z) :
  valid_channels w -> shape0 w = 0%nat -> 1 <= n_points ->
  compute_ecdf_features w n_points = Err IndexError.
Proof.
  intros HC HT Hn.
  assert (R : forall w9, shape1 w9 = 9%nat -> shape0 w9 = 0%nat ->
              compute_ecdf_features w9 n_points = Err IndexError).
  { intros w9 H9 HT9.
    rewrite compute_ecdf_features_9 by (assumption || lia).
    unfold ecdf_layout, axes_indices. cbn [mapM].
    rewrite (channel_features_empty w9 n_points 0 HT9 Hn). reflexivity. }
  destruct HC as [HC|HC].
  - apply R; assumption.
  - rewrite compute_ecdf_features_18 by exact HC.
    apply R; [reflexivity|]. rewrite take_columns_shape0. exact HT.
Qed.

(** X4.  A negative [n_points] never yields a block: once the channel
    check has passed, numpy raises a ValueError. *)
Theorem ecdf_negative_points_raises (w : ndarray2) (n_points : Z) :
  valid_channels w -> n_points < 0 ->
  exists msg, compute_ecdf_features w n_points = Err (ValueError msg).
Proof.
  intros [HC|HC] Hn.
  - apply compute_ecdf_features_9_negative; assumption.
  - rewrite compute_ecdf_features_18 by exact HC.
    apply compute_ecdf_features_9_negative; [reflexivity|exact Hn].
Qed.

Lemma channel_features_ext (w w' : ndarray2) (n : Z) (c c' : nat) :
  column w c = column w' c' ->
  channel_features w n c = channel_features w' n c'.
Proof. intro H. unfold channel_features. rewrite H. reflexivity. Qed.

Lemma compute_ecdf_features_9_ext (w w' : ndarray2) (n : Z) :
  shape1 w = 9%nat -> shape1 w' = 9%nat ->
  (forall c, (c < 9)%nat -> column w c = column w' c) ->
  compute_ecdf_features w n = compute_ecdf_features w' n.
Proof.
  intros H9 H9' Hcol.
  destruct (Z_lt_le_dec n 0) as [Hneg|Hpos].
  - unfold compute_ecdf_features. rewrite H9, H9'.
    cbn [Nat.eqb negb andb].
    destruct (Z.eq_dec n (-1)) as [->|Hne]; [reflexivity|].
    unfold np_zeros2.
    replace ((n + 1) * 3 <? 0) with true by (symmetry; apply Z.ltb_lt; lia).
    reflexivity.
  - rewrite !compute_ecdf_features_9 by assumption.
    unfold ecdf_layout, axes_indices. cbn [mapM].
    rewrite !(fun c H => channel_features_ext w w' n c c (Hcol c H)) by lia.
    reflexivity.
Qed.

(** X5.  The gyroscope channels of an 18-channel window play no part:
    two such windows whose even-indexed channels agree give the same
    result, block or exception. *)
Theorem ecdf_ignores_gyroscope (w w' : ndarray2) (n_points : Z) :
  shape1 w = 18%nat -> shape1 w' = 18%nat ->
  (forall j, (j < 9)%nat -> column w (2 * j) = column w' (2 * j)) ->
  compute_ecdf_features w n_points = compute_ecdf_features w' n_points.
Proof.
  intros H H' Hcol.
  rewrite (compute_ecdf_features_18 w), (compute_ecdf_features_18 w')
    by assumption.
  apply compute_ecdf_features_9_ext; try reflexivity.
  intros c Hc. rewrite !column_take_columns by exact Hc.
  replace (nth c acc_indices 0%nat) with (2 * c)%nat; [apply Hcol, Hc|].
  do 9 (destruct c as [|c]; [reflexivity|]). simpl in Hc. lia.
Qed.

(** X6.  A returned block always has 3 rows; its rows have the width
    announced by [get_ecdf_dimension] exactly when [n_points] is 25. *)
Theorem ecdf_block_dimension (w : ndarray2) (n_points : Z) (M : farray2) :
  compute_ecdf_features w n_points = Ok M ->
  length (cells2 M) = fst get_ecdf_dimension /\
  (Forall (fun row => length row = snd get_ecdf_dimension) (cells2 M)
   <-> n_points = 25).
Proof.
  intro E.
  destruct (compute_ecdf_features_shape w n_points M E) as (_ & Hn & _ & L & F).
  split; [exact L|]. cbn [snd get_ecdf_dimension]. split.
  - intro F'. destruct (cells2 M) as [|row block]; [discriminate|].
    inversion F as [|? ? H1 _]. inversion F' as [|? ? H2 _]. lia.
  - intros ->. exact F.
Qed.

Lemma returned_block_window (w : ndarray2) (n : Z) (M : farray2) :
  compute_ecdf_features w n = Ok M -> 1 <= n -> (1 <= shape0 w)%nat.
Proof.
  intros E Hn.
  destruct (compute_ecdf_features_shape w n M E) as (HC & _).
  destruct (compute_ecdf_features_segment w n M 0 0 HC E) as (_ & f & Ef & _);
    [lia|lia|].
  destruct (Nat.eq_dec (shape0 w) 0) as [E0|]; [|lia].
  rewrite channel_features_empty in Ef; [discriminate| |exact Hn].
  destruct (shape1 w =? 18)%nat; [|exact E0].
  rewrite take_columns_shape0. exact E0.
Qed.

(** X20.  Permuting the time steps of one channel leaves the samples of
    its segment unchanged: whenever two windows (9 or 18 channels) carry
    the same readings, up to their order in time, in the channel that
    feeds row [a], position [i], the [n_points] sample cells computed for
    them are equal; and for windows with at least one time step both
    blocks are indeed returned. *)
Theorem ecdf_samples_permutation_invariant (w w' : ndarray2) (n_points : Z)
    (a i : nat) :
  valid_channels w ->
  shape1 w' = shape1 w ->
  (a < 3)%nat -> (i < 3)%nat ->
  Permutation (column w (source_channel (shape1 w) (3 * i + a)))
              (column w' (source_channel (shape1 w) (3 * i + a))) ->
  (forall M M',
     compute_ecdf_features w n_points = Ok M ->
     compute_ecdf_features w' n_points = Ok M' ->
     firstn (Z.to_nat n_points) (segment n_points i (nth a (cells2 M) []))
     = firstn (Z.to_nat n_points) (segment n_points i (nth a (cells2 M') []))) /\
  ((1 <= shape0 w)%nat -> 0 <= n_points ->
   exists M M',
     compute_ecdf_features w n_points = Ok M /\
     compute_ecdf_features w' n_points = Ok M').
Proof.
  intros HC HC' Ha Hi P.
  assert (HCw' : valid_channels w')
    by (unfold valid_channels; rewrite HC'; exact HC).
  assert (HT : shape0 w' = shape0 w).
  { apply Permutation_length in P. unfold column in P.
    rewrite !length_map in P. unfold shape0. lia. }
  split.
  - intros M M' E E'.
    destruct (Z_lt_le_dec n_points 1) as [Hn|Hn].
    { replace (Z.to_nat n_points) with 0%nat by lia. reflexivity. }
    pose proof (returned_block_window w n_points M E Hn) as H1.
    pose proof (returned_block_window w' n_points M' E' Hn) as H1'.
    destruct (segment_samples w n_points M a i HC H1 E Ha Hi)
      as (points & EL & ->).
    destruct (segment_samples w' n_points M' a i HCw' H1' E' Ha Hi)
      as (points' & EL' & ->).
    rewrite HT, EL in EL'. injection EL' as <-.
    rewrite HC', (np_sort_permutation _ _ P). reflexivity.
  - intros H1 Hn.
    destruct (compute_ecdf_features_returns w n_points HC H1 Hn) as (b & E & _).
    destruct (compute_ecdf_features_returns w' n_points HCw'
                ltac:(rewrite HT; exact H1) Hn) as (b' & E' & _).
    eauto.
Qed.

(** ** More on the batch adapter *)

Lemma mapM_app {A B : Type} (f : A -> result B) (xs ys : list A) :
  mapM f (xs ++ ys) =
  (us <- mapM f xs ;; vs <- mapM f ys ;; Ok (us ++ vs)).
Proof.
  induction xs as [|x xs IH]; cbn [mapM app bind].
  - destruct (mapM f ys); reflexivity.
  - destruct (f x) as [y|e]; cbn [bind]; [|reflexivity].
    rewrite IH. destruct (mapM f xs) as [us|e]; cbn [bind]; [|reflexivity].
    destruct (mapM f ys) as [vs|e]; reflexivity.
Qed.

Lemma mapM_error_inv {A B : Type} (f : A -> result B) (xs : list A) (e : exn) :
  mapM f xs = Err e ->
  exists pre x post,
    xs = pre ++ x :: post /\
    (forall v, In v pre -> exists y, f v = Ok y) /\
    f x = Err e.
Proof.
  induction xs as [|x xs IH]; cbn [mapM]; [discriminate|].
  destruct (f x) as [y|e'] eqn:Ex; cbn [bind].
  - destruct (mapM f xs) as [ys|e'] eqn:Em; cbn [bind]; [discriminate|].
    intro H. injection H as ->.
    destruct (IH eq_refl) as (pre & x' & post & -> & Hpre & Hx).
    exists (x :: pre), x', post. split; [reflexivity|]. split; [|exact Hx].
    intros v [<-|Hv]; [eauto|auto].
  - intro H. injection H as ->.
    exists [], x, xs. split; [reflexivity|]. split; [intros v []|exact Ex].
Qed.

(** X7.  Batches compose: the result for two batches put end to end is
    the two results put end to end, and fails as the first of them that
    fails. *)
Theorem batch_concatenation (b1 b2 : list ndarray2) :
  compute_batch_ecdf_features (b1 ++ b2) =
  (F1 <- compute_batch_ecdf_features b1 ;;
   F2 <- compute_batch_ecdf_features b2 ;;
   Ok {| dtype3 := Float64; cells3 := cells3 F1 ++ cells3 F2 |}).
Proof.
  rewrite !compute_batch_ecdf_features_layout. unfold batch_layout.
  rewrite mapM_app.
  destruct (mapM _ b1) as [us|e]; cbn [bind]; [|reflexivity].
  destruct (mapM _ b2) as [vs|e]; cbn [bind cells3]; [|reflexivity].
  rewrite map_app. reflexivity.
Qed.

(** X8.  The batch adapter raises only what a window raises: its
    exception is that of the first window on which the extractor fails,
    and it returns an array when there is no such window. *)
Theorem batch_error_origin (batch : list ndarray2) :
  (forall e,
     compute_batch_ecdf_features batch = Err e <->
     exists pre w post,
       batch = pre ++ w :: post /\
       (forall v, In v pre -> exists M, compute_ecdf_features v 25 = Ok M) /\
       compute_ecdf_features w 25 = Err e) /\
  ((forall w, In w batch -> exists M, compute_ecdf_features w 25 = Ok M) ->
   exists F, compute_batch_ecdf_features batch = Ok F /\
             length (cells3 F) = length batch).
Proof.
  split.
  - intro e. split.
    + rewrite compute_batch_ecdf_features_layout. unfold batch_layout.
      destruct (mapM _ batch) as [blocks|e'] eqn:Em; cbn [bind]; [discriminate|].
      intro H. injection H as ->. exact (mapM_error_inv _ _ _ Em).
    + intros (pre & w & post & -> & Hpre & Hw).
      apply compute_batch_first_error; assumption.
  - intro H. rewrite compute_batch_ecdf_features_layout. unfold batch_layout.
    destruct (mapM_ok _ batch H) as (blocks & -> & L & _). cbn [bind].
    eexists. split; [reflexivity|]. cbn [cells3]. rewrite length_map. exact L.
Qed.

(** ** More on the Normalizer *)

Lemma zip_cells_length (op : npfloat -> npfloat -> npfloat)
    (xs ys : list npfloat) :
  length (zip_cells op xs ys) = Nat.max (length xs) (length ys).
Proof.
  revert ys. induction xs as [|x xs IH]; intros [|y ys]; simpl.
  - reflexivity.
  - rewrite length_map. reflexivity.
  - rewrite IH. simpl. lia.
  - rewrite IH. reflexivity.
Qed.

Lemma reduce_columns_length (stat : list npfloat -> npfloat) (df : DataFrame) :
  length (reduce_columns stat df) = ncols df.
Proof. unfold reduce_columns. rewrite length_map, length_seq. reflexivity. Qed.

Lemma frame_op_series_rows (op : npfloat -> npfloat -> npfloat)
    (rows : list (list npfloat)) (s : list npfloat) (n : nat) :
  Forall (fun r => length r = n) rows ->
  Forall (fun r => length r = Nat.max n (length s)) (frame_op_series op rows s).
Proof.
  intro H. unfold frame_op_series. apply Forall_forall. intros r Hr.
  apply in_map_iff in Hr as (r0 & <- & Hr0).
  rewrite zip_cells_length. rewrite Forall_forall in H.
  rewrite (H r0 Hr0). reflexivity.
Qed.

Lemma frame_op_frame_length (op : npfloat -> npfloat -> npfloat)
    (a b : list (list npfloat)) :
  length (frame_op_frame op a b) = Nat.min (length a) (length b).
Proof.
  revert b. induction a as [|r a IH]; intros [|s b]; cbn [frame_op_frame length];
    try reflexivity. rewrite IH. reflexivity.
Qed.

Lemma frame_op_frame_rows (op : npfloat -> npfloat -> npfloat)
    (a b : list (list npfloat)) (n : nat) :
  Forall (fun r => length r = n) a -> Forall (fun r => length r = n) b ->
  Forall (fun r => length r = n) (frame_op_frame op a b).
Proof.
  intro Ha. revert b. induction Ha as [|r a Hr _ IH]; intros b Hb;
    cbn [frame_op_frame]; [constructor|].
  destruct Hb as [|s b Hs Hb]; constructor.
  - rewrite zip_cells_length, Hr, Hs. apply Nat.max_id.
  - apply IH. exact Hb.
Qed.

Lemma group_transform_length (stat : list npfloat -> npfloat) (df : DataFrame) :
  length (group_transform stat df) = length (index df).
Proof. unfold group_transform. apply length_map. Qed.

Lemma group_transform_rows (stat : list npfloat -> npfloat) (df : DataFrame) :
  Forall (fun r => length r = ncols df) (group_transform stat df).
Proof.
  unfold group_transform. apply Forall_forall. intros r Hr.
  apply in_map_iff in Hr as (k & <- & _). rewrite length_map, length_seq.
  reflexivity.
Qed.

Lemma map_rows (g : npfloat -> npfloat) (rows : list (list npfloat)) (n : nat) :
  Forall (fun r => length r = n) rows ->
  Forall (fun r => length r = n) (map (map g) rows).
Proof.
  intro H. apply Forall_forall. intros r Hr.
  apply in_map_iff in Hr as (r0 & <- & Hr0). rewrite length_map.
  rewrite Forall_forall in H. exact (H r0 Hr0).
Qed.

(** X9.  The protocol of the class.  For each of the four modes, [fit] on
    a fresh Normalizer followed by [normalize] returns a frame with the
    index of the frame normalized.  In the two per-sample modes its
    columns are those of the frame normalized; in the modes
    standardization and minmax they are the union of these columns and
    of the columns of the frame fitted.  When the frame normalized is
    rectangular, so is the result, with as many lines.  Without [fit],
    [normalize] raises AttributeError in the modes standardization
    ([mean]) and minmax ([min_val]) and returns in the two per-sample
    modes. *)
Theorem normalizer_protocol (sqrt : Qc -> Qc) (mode : string)
    (df df' : DataFrame) :
  valid_mode mode ->
  (exists self out,
     fit sqrt (Normalizer_init mode) df = Ok self /\
     normalize sqrt self df' = Ok out /\
     index out = index df' /\
     (mode = "standardization"%string \/ mode = "minmax"%string ->
      ncols out = Nat.max (ncols df') (ncols df)) /\
     (mode = "per_sample_std"%string \/ mode = "per_sample_minmax"%string ->
      ncols out = ncols df') /\
     (Forall (fun r => length r = ncols df') (cells df') ->
      length (index df') = length (cells df') ->
      length (cells out) = length (cells df') /\
      Forall (fun r => length r = ncols out) (cells out))) /\
  (mode = "standardization"%string ->
   normalize sqrt (Normalizer_init mode) df' = Err (AttributeError "mean")) /\
  (mode = "minmax"%string ->
   normalize sqrt (Normalizer_init mode) df' = Err (AttributeError "min_val")) /\
  (mode = "per_sample_std"%string \/ mode = "per_sample_minmax"%string ->
   exists out, normalize sqrt (Normalizer_init mode) df' = Ok out).
Proof.
  intro H. split; [|split; [|split]].
  - destruct H as [-> | [-> | [-> | ->]]]; eexists; eexists;
      (split; [reflexivity|]); (split; [reflexivity|]);
      (split; [reflexivity|]).
    + split; [|split].
      * intros _. cbn [ncols frame_with_series].
        unfold standardization_denominator.
        rewrite length_map, !reduce_columns_length. lia.
      * intros [E|E]; discriminate E.
      * intros Hrows _. cbn [cells ncols frame_with_series]. split.
        -- unfold frame_op_series. rewrite !length_map. reflexivity.
        -- apply frame_op_series_rows, frame_op_series_rows. exact Hrows.
    + split; [|split].
      * intros _. cbn [ncols frame_with_series].
        unfold minmax_denominator.
        rewrite length_map, zip_cells_length, !reduce_columns_length. lia.
      * intros [E|E]; discriminate E.
      * intros Hrows _. cbn [cells ncols frame_with_series]. split.
        -- unfold frame_op_series. rewrite !length_map. reflexivity.
        -- apply frame_op_series_rows, frame_op_series_rows. exact Hrows.
    + split; [|split].
      * intros [E|E]; discriminate E.
      * intros _. reflexivity.
      * intros Hrows Hidx. cbn [cells ncols with_cells]. split.
        -- unfold per_sample_std_denominator.
           rewrite !frame_op_frame_length, !group_transform_length. lia.
        -- repeat apply frame_op_frame_rows; try exact Hrows;
             apply group_transform_rows.
    + split; [|split].
      * intros [E|E]; discriminate E.
      * intros _. reflexivity.
      * intros Hrows Hidx. cbn [cells ncols with_cells]. split.
        -- unfold per_sample_minmax_denominator.
           rewrite !frame_op_frame_length, !length_map,
             !frame_op_frame_length, !group_transform_length. lia.
        -- unfold per_sample_minmax_denominator.
           repeat first [ apply frame_op_frame_rows | apply map_rows
                        | exact Hrows | apply group_transform_rows ].
  - intros ->. reflexivity.
  - intros ->. reflexivity.
  - intros [->| ->]; eexists; reflexivity.
Qed.

Lemma finite_values_length (xs : list npfloat) :
  (length (finite_values xs) <= length xs)%nat.
Proof.
  induction xs as [|[q|] xs IH]; simpl; lia.
Qed.

Lemma stat_std_short (sqrt : Qc -> Qc) (xs : list npfloat) :
  (length xs <= 1)%nat -> stat_std sqrt xs = NonFinite.
Proof.
  intro H. unfold stat_std.
  pose proof (finite_values_length xs) as L.
  destruct (np_mean (finite_values xs)); [|reflexivity].
  replace (length (finite_values xs) <=? 1)%nat with true; [reflexivity|].
  symmetry. apply Nat.leb_le. lia.
Qed.

Lemma zip_cells_fdiv_nonfinite (xs ys : list npfloat) :
  Forall (eq NonFinite) ys ->
  Forall (eq NonFinite) (zip_cells fdiv xs ys).
Proof.
  intro H. revert xs. induction H as [|y ys <- _ IH]; intro xs.
  - induction xs as [|x xs IHx]; simpl; constructor; [reflexivity|exact IHx].
  - destruct xs as [|x xs]; simpl.
    + constructor; [reflexivity|].
      apply Forall_forall. intros z Hz.
      apply in_map_iff in Hz as (? & <- & _). reflexivity.
    + constructor; [destruct x; reflexivity|apply IH].
Qed.

(** X11.  Standardization of a frame of a single line gives nan in every
    cell: the sample deviation of one value does not exist. *)
Theorem standardization_single_row (sqrt : Qc -> Qc) (df : DataFrame)
    (r : list npfloat) :
  cells df = [r] ->
  exists self row,
    fit sqrt (Normalizer_init "standardization") df = Ok self /\
    normalize sqrt self df = Ok (with_cells df [row]) /\
    length row = Nat.max (length r) (ncols df) /\
    Forall (eq NonFinite) row.
Proof.
  intro Hc. eexists.
  exists (zip_cells fdiv (zip_cells fsub r (reduce_columns stat_mean df))
                    (map add_eps (reduce_columns (stat_std sqrt) df))).
  split; [reflexivity|].
  unfold normalize. cbn [norm_type mean std get_series bind].
  rewrite String.eqb_refl. cbn [bind].
  unfold frame_with_series, with_cells. cbn [ncols index cells].
  unfold frame_op_series, standardization_denominator. rewrite Hc. cbn [map].
  rewrite length_map, !reduce_columns_length, !Nat.max_id.
  split; [reflexivity|]. split.
  - rewrite !zip_cells_length, length_map, !reduce_columns_length. lia.
  - apply zip_cells_fdiv_nonfinite.
    apply Forall_forall. intros z Hz.
    apply in_map_iff in Hz as (s & <- & Hs).
    unfold reduce_columns in Hs. apply in_map_iff in Hs as (j & <- & _).
    rewrite stat_std_short; [reflexivity|].
    unfold df_column. rewrite Hc. simpl. lia.
Qed.

(** ** More on the band selection *)

Lemma fftfreq_bins_head (n : nat) :
  exists rest, fftfreq_bins n = 0 :: rest.
Proof.
  unfold fftfreq_bins. rewrite Nat.add_1_r. cbn [seq map app].
  eexists. reflexivity.
Qed.

(** X14.  The zero-frequency bin comes first and, for band edges
    [0 <= freq1 <= freq2], belongs to the DC component alone. *)
Theorem zero_frequency_bin_is_dc (complex : Type)
    (complex_of_float : Qc -> complex) (fft_values : list Qc -> list complex)
    (t_signal : list Qc) (freq1 freq2 fs : Qc) :
  length (fft_values t_signal) = length t_signal ->
  t_signal <> [] -> fs <> 0%Qc ->
  (0 <= freq1)%Qc -> (freq1 <= freq2)%Qc ->
  exists freqs dc body noise,
    masked_spectra complex complex_of_float fft_values t_signal freq1 freq2 fs
    = Ok (freqs, (dc, body, noise)) /\
    nth_error freqs 0 = Some 0%Qc /\
    nth_error dc 0 = nth_error (fft_values t_signal) 0 /\
    nth_error body 0 = Some (complex_of_float 0%Qc) /\
    nth_error noise 0 = Some (complex_of_float 0%Qc).
Proof.
  intros HL Hne Hfs H1 H12.
  destruct (masked_spectra_ok complex complex_of_float fft_values
              t_signal freq1 freq2 fs HL Hne Hfs)
    as (freqs & _ & LF & Efreqs & EM).
  do 4 eexists. split; [exact EM|].
  destruct (fftfreq_bins_head (length t_signal)) as [rest Er].
  rewrite Er in Efreqs. cbn [map] in Efreqs.
  replace (Qc_of_Z 0 * (fs / Qc_of_nat (length t_signal)))%Qc with 0%Qc
    in Efreqs by (change (Qc_of_Z 0) with 0%Qc; unfold Qcdiv; ring).
  destruct (fft_values t_signal) as [|v F].
  { destruct t_signal; [contradiction|discriminate]. }
  rewrite Efreqs. unfold apply_mask. cbn [combine map nth_error fst snd].
  assert (A0 : Qcabs 0%Qc = 0%Qc) by (apply Qcabs_pos, Qcle_refl).
  assert (D : dc_mask freq1 0%Qc = true).
  { unfold dc_mask. rewrite A0. apply Qcleb_le, H1. }
  assert (Bm : body_mask freq1 freq2 0%Qc = false).
  { unfold body_mask. rewrite A0.
    replace (Qcltb freq1 0%Qc) with false; [reflexivity|].
    symmetry. apply Qcltb_ge, H1. }
  assert (N : noise_mask freq2 0%Qc = false).
  { unfold noise_mask. rewrite A0. apply Qcltb_ge.
    exact (Qcle_trans _ _ _ H1 H12). }
  rewrite D, Bm, N. repeat split; reflexivity.
Qed.

(** X15.  Outcomes of [components_selection_one_signal]: an empty signal
    is refused by the transform (ValueError); a sampling frequency of 0
    raises ZeroDivisionError; otherwise, the transforms keeping the
    length, both components have the length of the signal. *)
Theorem components_selection_outcomes (complex : Type)
    (complex_of_float : Qc -> complex) (real : complex -> Qc)
    (fft_values : list Qc -> list complex)
    (ifft_values : list complex -> list complex)
    (t_signal : list Qc) (freq1 freq2 fs : Qc) :
  (t_signal = [] ->
   exists msg,
     components_selection_one_signal complex complex_of_float real fft_values
       ifft_values t_signal freq1 freq2 fs = Err (ValueError msg)) /\
  (t_signal <> [] -> fs = 0%Qc ->
   components_selection_one_signal complex complex_of_float real fft_values
     ifft_values t_signal freq1 freq2 fs = Err ZeroDivisionError) /\
  (t_signal <> [] -> fs <> 0%Qc ->
   length (fft_values t_signal) = length t_signal ->
   (forall x, length (ifft_values x) = length x) ->
   exists dc body,
     components_selection_one_signal complex complex_of_float real fft_values
       ifft_values t_signal freq1 freq2 fs = Ok (dc, body) /\
     length dc = length t_signal /\ length body = length t_signal).
Proof.
  split; [|split].
  - intros ->. eexists. reflexivity.
  - intros Hne ->. unfold components_selection_one_signal, masked_spectra, fft.
    destruct t_signal; [contradiction|]. reflexivity.
  - intros Hne Hfs HL Hifft.
    destruct (masked_spectra_ok complex complex_of_float fft_values
                t_signal freq1 freq2 fs HL Hne Hfs)
      as (freqs & _ & LF & _ & EM).
    unfold components_selection_one_signal. rewrite EM. cbn [bind].
    do 2 eexists. split; [reflexivity|].
    unfold apply_mask.
    rewrite !length_map, !Hifft, !length_map, length_combine, LF, HL,
      Nat.min_id.
    split; reflexivity.
Qed.

(** ** str2bool *)

Lemma ascii_lower_upper (c : ascii) : ascii_lower (ascii_upper c) = ascii_lower c.
Proof. destruct c as [[] [] [] [] [] [] [] []]; reflexivity. Qed.

Lemma ascii_lower_lower (c : ascii) : ascii_lower (ascii_lower c) = ascii_lower c.
Proof. destruct c as [[] [] [] [] [] [] [] []]; reflexivity. Qed.

Lemma lower_upper (s : string) : lower (upper s) = lower s.
Proof.
  induction s as [|c s IH]; simpl; [reflexivity|].
  rewrite ascii_lower_upper, IH. reflexivity.
Qed.

Lemma lower_lower (s : string) : lower (lower s) = lower s.
Proof.
  induction s as [|c s IH]; simpl; [reflexivity|].
  rewrite ascii_lower_lower, IH. reflexivity.
Qed.

(** X16.  [str2bool] does not see the letter case of its argument. *)
Theorem str2bool_case_insensitive (s : string) :
  str2bool (ArgStr (upper s)) = str2bool (ArgStr s) /\
  str2bool (ArgStr (lower s)) = str2bool (ArgStr s).
Proof.
  unfold str2bool. rewrite lower_upper, lower_lower. split; reflexivity.
Qed.

(** X17.  [str2bool] inverts the printing of booleans, in lower, upper or
    capitalized letters, and passes booleans through. *)
Theorem str2bool_of_printed_bool (b : bool) :
  str2bool (ArgStr (str_of_bool b)) = Returns b /\
  str2bool (ArgStr (lower (str_of_bool b))) = Returns b /\
  str2bool (ArgStr (upper (str_of_bool b))) = Returns b /\
  str2bool (ArgBool b) = Returns b.
Proof. destruct b; repeat split; reflexivity. Qed.

Lemma chars_lower (s : string) (c : ascii) :
  In c (chars s) -> In (ascii_lower c) (chars (lower s)).
Proof.
  induction s as [|c' s IH]; simpl; [tauto|].
  intros [->|H]; [left; reflexivity|right; exact (IH H)].
Qed.

Lemma in_tuple_In (s : string) (words : list string) :
  in_tuple s words = true -> In s words.
Proof.
  unfold in_tuple. intro H. apply existsb_exists in H as (w & Hw & E).
  apply String.eqb_eq in E. subst. exact Hw.
Qed.

(** X18.  Nothing is stripped or guessed: the empty string is refused,
    and so is every string holding a character that, in lower case, is
    not one of the letters and digits of the ten accepted words. *)
Theorem str2bool_refuses (s : string) :
  s = EmptyString \/
  (exists c, In c (chars s) /\
             ~ In (ascii_lower c) (chars "yestrunofal01")) ->
  str2bool (ArgStr s) = ArgumentTypeError "Boolean value expected.".
Proof.
  intro H. unfold str2bool.
  assert (N : forall words, (words = true_words \/ words = false_words) ->
              in_tuple (lower s) words = false).
  { intros words Hw.
    destruct (in_tuple (lower s) words) eqn:E; [|reflexivity].
    exfalso. apply in_tuple_In in E.
    destruct H as [->|(c & Hc & Hn)].
    - destruct Hw as [-> | ->]; simpl in E;
        repeat (destruct E as [E|E]; [discriminate|]); exact E.
    - apply Hn. apply chars_lower in Hc.
      destruct Hw as [-> | ->]; simpl in E;
        repeat (destruct E as [E|E];
                [rewrite <- E in Hc; simpl in Hc; simpl; tauto|]);
        destruct E. }
  rewrite (N true_words (or_introl eq_refl)),
    (N false_words (or_intror eq_refl)).
  reflexivity.
Qed.

(** * Worked instances of the further properties *)

Lemma ecdf_constant_channel_witness :
  exists M,
    compute_ecdf_features example_window_flat 25 = Ok M /\
    firstn (Z.to_nat 25) (segment 25 0 (nth 0 (cells2 M) []))
    = repeat (float32_of (Finite (Qc_of_Z 3))) (Z.to_nat 25).
Proof.
  destruct (compute_ecdf_features_returns example_window_flat 25)
    as (block & E & _).
  - left. reflexivity.
  - vm_compute. lia.
  - lia.
  - eexists. split; [exact E|].
    apply (ecdf_constant_channel example_window_flat 25 _ 0 0 (Qc_of_Z 3)).
    + left. reflexivity.
    + vm_compute. lia.
    + exact E.
    + lia.
    + lia.
    + intros x [<-|[<-|[]]]; reflexivity.
Defined.

Lemma ecdf_samples_permutation_invariant_witness :
  exists M M',
    compute_ecdf_features example_window 25 = Ok M /\
    compute_ecdf_features example_window_reversed 25 = Ok M'.
Proof.
  apply (ecdf_samples_permutation_invariant
           example_window example_window_reversed 25 0 1).
  - left. reflexivity.
  - reflexivity.
  - lia.
  - lia.
  - unfold column, example_window_reversed. cbn [rows].
    rewrite map_rev. apply Permutation_rev.
  - vm_compute. lia.
  - lia.
Defined.

Lemma ecdf_extreme_samples_witness :
  exists M lo hi,
    compute_ecdf_features example_window 25 = Ok M /\
    nth 0 (segment 25 0 (nth 0 (cells2 M) [])) NonFinite
    = float32_of (Finite lo) /\
    nth 24 (segment 25 0 (nth 0 (cells2 M) [])) NonFinite
    = float32_of (Finite hi).
Proof.
  destruct (compute_ecdf_features_returns example_window 25)
    as (block & E & _).
  - left. reflexivity.
  - vm_compute. lia.
  - lia.
  - destruct (ecdf_extreme_samples example_window 25
                {| dtype2 := Float32; cells2 := block |} 0 0)
      as (lo & hi & _ & _ & _ & H0 & H1).
    + left. reflexivity.
    + vm_compute. lia.
    + lia.
    + exact E.
    + lia.
    + lia.
    + eexists. exists lo, hi. split; [exact E|]. split; [exact H0|exact H1].
Defined.

Lemma ecdf_samples_are_order_statistics_witness :
  exists M (sorted : list Qc) (positions : list Z),
    compute_ecdf_features example_window 25 = Ok M /\
    Permutation (column example_window 3) sorted /\
    Sorted Qcle sorted /\
    Sorted Z.le positions /\
    firstn (Z.to_nat 25) (segment 25 1 (nth 0 (cells2 M) []))
    = map (fun k => float32_of (Finite (nth (Z.to_nat k) sorted 0%Qc)))
          positions.
Proof.
  destruct (compute_ecdf_features_returns example_window 25)
    as (block & E & _).
  - left. reflexivity.
  - vm_compute. lia.
  - lia.
  - destruct (ecdf_samples_are_order_statistics
                example_window 25 {| dtype2 := Float32; cells2 := block |} 0 1)
      as (sorted & positions & P & S & _ & _ & SP & ES).
    + left. reflexivity.
    + vm_compute. lia.
    + exact E.
    + lia.
    + lia.
    + eexists. exists sorted, positions. split; [exact E|].
      split; [exact P|]. split; [exact S|]. split; [exact SP|exact ES].
Defined.

Lemma ecdf_empty_window_raises_witness :
  compute_ecdf_features example_window_empty 25 = Err IndexError.
Proof.
  apply (ecdf_empty_window_raises example_window_empty 25).
  - left. reflexivity.
  - reflexivity.
  - lia.
Defined.

Lemma ecdf_negative_points_raises_witness :
  exists msg, compute_ecdf_features example_window (-3) = Err (ValueError msg).
Proof.
  apply (ecdf_negative_points_raises example_window (-3)).
  - left. reflexivity.
  - lia.
Defined.

Lemma ecdf_ignores_gyroscope_witness :
  compute_ecdf_features example_window_18 25
  = compute_ecdf_features example_window_18_gyro 25.
Proof.
  apply (ecdf_ignores_gyroscope example_window_18 example_window_18_gyro 25).
  - reflexivity.
  - reflexivity.
  - intros j Hj. do 9 (destruct j as [|j]; [reflexivity|]). lia.
Defined.

Lemma ecdf_block_dimension_witness :
  exists M,
    compute_ecdf_features example_window 25 = Ok M /\
    length (cells2 M) = 3%nat.
Proof.
  destruct (compute_ecdf_features_returns example_window 25)
    as (block & E & _).
  - left. reflexivity.
  - vm_compute. lia.
  - lia.
  - eexists. split; [exact E|].
    apply (ecdf_block_dimension example_window 25 _ E).
Defined.

Lemma batch_error_origin_witness :
  compute_batch_ecdf_features [example_window; example_window_empty]
  = Err IndexError.
Proof.
  apply (batch_error_origin [example_window; example_window_empty]).
  exists [example_window], example_window_empty, [].
  split; [reflexivity|]. split.
  - intros v [<-|[]].
    destruct (compute_ecdf_features_returns example_window 25)
      as (block & E & _).
    + left. reflexivity.
    + vm_compute. lia.
    + lia.
    + eexists. exact E.
  - vm_compute. reflexivity.
Defined.

Lemma normalizer_protocol_witness :
  exists self out,
    fit example_sqrt (Normalizer_init "minmax") example_frame = Ok self /\
    normalize example_sqrt self constant_sample = Ok out /\
    index out = index constant_sample /\
    ncols out = 2%nat /\
    length (cells out) = 2%nat /\
    Forall (fun r => length r = ncols out) (cells out).
Proof.
  destruct (normalizer_protocol example_sqrt "minmax" example_frame
                                constant_sample)
    as ((self & out & EF & EN & EI & EC & _ & ER) & _).
  - right. left. reflexivity.
  - exists self, out. split; [exact EF|]. split; [exact EN|].
    split; [exact EI|]. split; [apply EC; right; reflexivity|].
    apply ER.
    + repeat constructor.
    + reflexivity.
Defined.

Lemma standardization_single_row_witness :
  exists self row,
    fit example_sqrt (Normalizer_init "standardization") example_frame_single
    = Ok self /\
    normalize example_sqrt self example_frame_single
    = Ok (with_cells example_frame_single [row]) /\
    Forall (eq NonFinite) row.
Proof.
  destruct (standardization_single_row example_sqrt example_frame_single
              (map Finite (row_of [1; 4])))
    as (self & row & Hf & Hn & _ & HF).
  - reflexivity.
  - exists self, row. repeat split; assumption.
Defined.

Lemma zero_frequency_bin_is_dc_witness :
  exists freqs spectra,
    masked_spectra (Qc * Qc) (fun q => (q, 0%Qc)) example_spectrum
      (row_of [1; 2; 3; 4]) (Q2Qc (1 # 1000)) (Qc_of_Z 25) (Qc_of_Z 50)
    = Ok (freqs, spectra) /\
    nth_error freqs 0 = Some 0%Qc.
Proof.
  destruct (zero_frequency_bin_is_dc (Qc * Qc) (fun q => (q, 0%Qc))
              example_spectrum (row_of [1; 2; 3; 4]) (Q2Qc (1 # 1000))
              (Qc_of_Z 25) (Qc_of_Z 50))
    as (freqs & dc & body & noise & E & H0 & _).
  - reflexivity.
  - discriminate.
  - discriminate.
  - apply Qcleb_le. reflexivity.
  - apply Qcleb_le. reflexivity.
  - exists freqs. eexists. split; [exact E|exact H0].
Defined.

Lemma components_selection_outcomes_witness :
  components_selection_one_signal (Qc * Qc) (fun q => (q, 0%Qc)) fst
    example_spectrum (fun x => x) (row_of [1; 2; 3; 4])
    (Q2Qc (1 # 1000)) (Qc_of_Z 25) 0%Qc
  = Err ZeroDivisionError.
Proof.
  apply (components_selection_outcomes (Qc * Qc) (fun q => (q, 0%Qc)) fst
           example_spectrum (fun x => x) (row_of [1; 2; 3; 4])
           (Q2Qc (1 # 1000)) (Qc_of_Z 25) 0%Qc).
  - discriminate.
  - reflexivity.
Defined.

Lemma str2bool_refuses_witness :
  str2bool (ArgStr " true") = ArgumentTypeError "Boolean value expected.".
Proof.
  apply (str2bool_refuses " true").
  right. exists " "%char. split.
  - left. reflexivity.
  - simpl. intros H.
    repeat (destruct H as [H|H]; [discriminate H|]). exact H.
Defined.

